(** * molecularnetwork: a shallow embedding of the graph-construction pipeline

    The development follows the three source modules
    [molecularnetwork/featurizer.py], [molecularnetwork/similarity.py] and
    [molecularnetwork/graph.py].  The chemistry toolkit (RDKit), the array
    library (numpy) and the graph library (networkx) are not part of the
    package: the toolkit is an interface ([RDKit]), the few numpy and networkx
    operations the package calls are modelled after their documented
    behaviour. *)

From Stdlib Require Import Ascii String QArith Qcanon.
From stdpp Require Import base decidable option list sorting numbers strings
  pretty gmap fin_sets.

Set Default Proof Using "Type".
Set Warnings "-clear-no-such-hyp".
Local Open Scope Qc_scope.
Local Open Scope nat_scope.

(** ** Python runtime: exceptions and stateful, fallible computations *)

Module Py.

(** The exceptions the package can raise.  [InvalidSMILESError] is raised as
    a bare class ([raise InvalidSMILESError]), so the instance carries no
    argument; a failed dict lookup raises [KeyError] with the key; calling a
    function with too few positional arguments raises [TypeError]; an index
    out of range raises [IndexError]. *)
Inductive exn : Type :=
| InvalidSMILESError
| KeyError (key : string)
| TypeError
| IndexError.

(** [e.args] of an exception instance. *)
Definition args (e : exn) : list string :=
  match e with
  | KeyError key => [key]
  | InvalidSMILESError | TypeError | IndexError => []
  end.

Definition Result (A : Type) : Type := exn + A.

(** A computation over a mutable state [S]: the state that is reached is
    returned also when an exception is raised, so that what a failed call
    has already mutated stays visible. *)
Definition M (S A : Type) : Type := S → Result A * S.

Definition ret {S A} (a : A) : M S A := λ s, (inr a, s).
Definition raise {S A} (e : exn) : M S A := λ s, (inl e, s).
Definition bind {S A B} (m : M S A) (k : A → M S B) : M S B :=
  λ s, match m s with
       | (inr a, s') => k a s'
       | (inl e, s') => (inl e, s')
       end.
Definition modify {S} (f : S → S) : M S unit := λ s, (inr tt, f s).

(** Runs a computation on the second component of a pair of states. *)
Definition zoom_snd {S T A} (m : M T A) : M (S * T) A :=
  λ st, let '(r, t') := m st.2 in (r, (st.1, t')).

Declare Scope py_scope.
Delimit Scope py_scope with py.
Notation "x <- c1 ;; c2" := (bind c1 (λ x, c2))
  (at level 100, c1 at next level, right associativity) : py_scope.
Notation "c1 ;; c2" := (bind c1 (λ _, c2))
  (at level 100, right associativity) : py_scope.

(** [[f(x) for x in l]]: elements are visited in order and the first
    exception ends the comprehension. *)
Fixpoint comprehension {S A B} (f : A → M S B) (l : list A) : M S (list B) :=
  match l with
  | [] => ret []
  | x :: l' =>
      (y <- f x ;; ys <- comprehension f l' ;; ret (y :: ys))%py
  end.

(** [for x in l: body(x)]. *)
Fixpoint for_each {S A} (l : list A) (body : A → M S unit) : M S unit :=
  match l with
  | [] => ret tt
  | x :: l' => (body x ;; for_each l' body)%py
  end.

(** [l[i]] on a sequence, for a non-negative index. *)
Definition getitem {S A} (l : list A) (i : nat) : M S A :=
  match l !! i with
  | Some x => ret x
  | None => raise IndexError
  end.

(** [d[key]] on a dict written as a literal with distinct string keys. *)
Fixpoint dict_get {V} (d : list (string * V)) (key : string) : option V :=
  match d with
  | [] => None
  | (k, v) :: d' => if String.eqb k key then Some v else dict_get d' key
  end.
Definition dict_getitem {S V} (d : list (string * V)) (key : string) : M S V :=
  match dict_get d key with
  | Some v => ret v
  | None => raise (KeyError key)
  end.

(** [a > b] and the two-argument [max(a, b)] on numbers: [max] keeps its
    first argument unless the second is strictly greater. *)
Definition gt (a b : Qc) : bool := bool_decide (b < a)%Qc.
Definition max (a b : Qc) : Qc := if gt b a then b else a.

End Py.

Import Py.
Local Open Scope py_scope.

(** ** The chemistry toolkit (RDKit), as the package sees it

    [Chem.MolFromSmiles] returns [None] on a string it cannot parse and a
    molecule object (truthy) otherwise; the six descriptor functions turn a
    molecule into a fingerprint; the similarity functions of [DataStructs]
    score two fingerprints.  Scores are finite floats; they are only
    compared, so they are modelled as rationals.

    The interface takes every similarity function to return a score on
    every two fingerprints.  The toolkit itself is narrower: a function that
    is defined on bit vectors only (such as [CosineSimilarity]) refuses the
    count vectors that the atom-pair and the topological-torsion descriptors
    produce, with an argument error (a [TypeError]) at the first call.  That
    error is outside the interface: what is proved below of a build that
    reaches the scoring step and returns is a statement about the
    combinations of descriptor and metric that the toolkit scores. *)

Class RDKit : Type := {
  Mol : Type;
  Fingerprint : Type;
  MolFromSmiles : string → option Mol;
  GetAtomPairFingerprint : Mol → Fingerprint;
  GenMACCSKeys : Mol → Fingerprint;
  GetMorganFingerprintAsBitVect : Mol → nat → nat → Fingerprint;
  FingerprintMol : Mol → Fingerprint;
  GetTopologicalTorsionFingerprint : Mol → Fingerprint;
  AsymmetricSimilarity : Fingerprint → Fingerprint → Qc;
  BraunBlanquetSimilarity : Fingerprint → Fingerprint → Qc;
  CosineSimilarity : Fingerprint → Fingerprint → Qc;
  DiceSimilarity : Fingerprint → Fingerprint → Qc;
  KulczynskiSimilarity : Fingerprint → Fingerprint → Qc;
  McConnaugheySimilarity : Fingerprint → Fingerprint → Qc;
  OnBitSimilarity : Fingerprint → Fingerprint → Qc;
  RogotGoldbergSimilarity : Fingerprint → Fingerprint → Qc;
  RusselSimilarity : Fingerprint → Fingerprint → Qc;
  SokalSimilarity : Fingerprint → Fingerprint → Qc;
  TanimotoSimilarity : Fingerprint → Fingerprint → Qc;
  TverskySimilarity : Fingerprint → Fingerprint → Qc → Qc → Qc;
}.

(** The log of the strings handed to [Chem.MolFromSmiles], in call order. *)
Abbreviation Log := (list string) (only parsing).

Definition Chem_MolFromSmiles `{RDKit} (smiles : string) : M Log (option Mol) :=
  λ log, (inr (MolFromSmiles smiles), log ++ [smiles]).

(** ** Labels

    [np.unique(classes)] first converts the list of raw labels into an
    array of one dtype ([np.asanyarray]).  The elements of an array of one
    dtype are ordered (numpy sorts with that order), compared with [==],
    and [str] gives the string form of an element.  [Label] describes such
    an element type. *)

Class Label (L : Type) : Type := {
  label_eq_dec :: EqDecision L;
  label_le : relation L;
  label_le_dec :: RelDecision label_le;
  label_le_po :: PartialOrder label_le;
  label_le_total :: Total label_le;
  str : L → string;
}.

(** Python strings (without NUL characters, which a numpy string array does
    not keep at the end of an element): the array holds them as they are. *)
#[export] Instance string_Label : Label string :=
  {| label_le := String.le; str := id |}.

(** The raw labels of one call are Python values of a type [R]:
    [asanyarray] is the conversion of a list of them into an array, whose
    elements have the type [Elem R], and [array_eq x c] is [x == c] for an
    element [x] of the array and a raw label [c]. *)
Class ArrayLike (R : Type) : Type := {
  Elem : Type;
  Elem_Label :: Label Elem;
  asanyarray : list R → list Elem;
  array_eq : Elem → R → bool;
}.
Global Arguments Elem R {_}.

(** Labels that an array holds as they are. *)
#[export] Instance Label_ArrayLike `{Label L} : ArrayLike L :=
  {| Elem := L;
     asanyarray := λ classes, classes;
     array_eq := λ x c, bool_decide (x = c) |}.

(** ** numpy: the array operations of [_convert_classes] *)

Module np.
Section array.
Context `{Label L}.

(** [aux[1:] != aux[:-1]] with the first element always kept: an element
    of the sorted array survives when it differs from its predecessor. *)
Fixpoint drop_repeats (prev : L) (aux : list L) : list L :=
  match aux with
  | [] => []
  | x :: aux' =>
      if decide (x = prev) then drop_repeats x aux'
      else x :: drop_repeats x aux'
  end.

(** [np.unique] on an array: sort, then keep the first element of every
    run. *)
Definition unique (ar : list L) : list L :=
  match merge_sort label_le ar with
  | [] => []
  | x :: aux => x :: drop_repeats x aux
  end.

(** [np.arange(n)]. *)
Definition arange (n : nat) : list nat := seq 0 n.

(** [np.where(mask)[0]]: the positions at which [mask] is true,
    increasing. *)
Fixpoint where_from (i : nat) (mask : list bool) : list nat :=
  match mask with
  | [] => []
  | m :: mask' =>
      if m then i :: where_from (S i) mask' else where_from (S i) mask'
  end.
Definition where_ (mask : list bool) : list nat := where_from 0 mask.

(** The positions of an array that hold the element [c]. *)
Definition where_eq (ar : list L) (c : L) : list nat :=
  where_ ((λ x, bool_decide (x = c)) <$> ar).
End array.

(** *** Lists of Python integers

    numpy gives a list of Python integers the dtype [int64] when all of them
    fit it, else [uint64] when all of them fit that, else [float64] when
    each fits one of the two, else [object] (the array then holds the Python
    integers themselves).  The conversion to [float64] rounds to the nearest
    double, ties to the even significand.  An element is its dtype and its
    value; the value of a [float64] element converted from an integer is an
    integer again. *)
Inductive dtype : Type := int64 | uint64 | float64 | object.

Record number : Type := mk_number {
  number_dtype : dtype;
  number_value : Z;
}.

#[global] Instance dtype_eq_dec : EqDecision dtype.
Proof. solve_decision. Defined.
#[global] Instance number_eq_dec : EqDecision number.
Proof. solve_decision. Defined.

Definition to_float64 (z : Z) : Z :=
  let a := Z.abs z in
  if (a <? 2 ^ 53)%Z then z
  else
    let shift := (Z.log2 a - 52)%Z in
    let q := Z.shiftr a shift in
    let r := (a - Z.shiftl q shift)%Z in
    let half := (2 ^ (shift - 1))%Z in
    let q' :=
      if ((half <? r)%Z || ((r =? half)%Z && Z.odd q))%bool
      then (q + 1)%Z else q in
    (Z.sgn z * Z.shiftl q' shift)%Z.

Definition result_type (classes : list Z) : dtype :=
  match classes with
  | [] => float64
  | _ =>
      if forallb (λ z, (- 2 ^ 63 <=? z)%Z && (z <? 2 ^ 63)%Z) classes
      then int64
      else if forallb (λ z, (0 <=? z)%Z && (z <? 2 ^ 64)%Z) classes
      then uint64
      else if forallb (λ z, (- 2 ^ 63 <=? z)%Z && (z <? 2 ^ 64)%Z) classes
      then float64
      else object
  end.

Definition array_of_ints (classes : list Z) : list number :=
  let dt := result_type classes in
  (λ z, mk_number dt
          match dt with float64 => to_float64 z | _ => z end) <$> classes.

(** [x == c] for an element of such an array and a Python integer: the
    integer is converted to [float64] when the array holds doubles. *)
Definition number_eq (x : number) (c : Z) : bool :=
  match number_dtype x with
  | float64 => bool_decide (number_value x = to_float64 c)
  | _ => bool_decide (number_value x = c)
  end.

(** The order of the elements; one array holds one dtype. *)
Definition dtype_code (dt : dtype) : Z :=
  match dt with int64 => 0 | uint64 => 1 | float64 => 2 | object => 3 end.
Definition number_code (x : number) : Z :=
  (4 * number_value x + dtype_code (number_dtype x))%Z.
Definition number_le (x y : number) : Prop :=
  (number_code x ≤ number_code y)%Z.

(** [str] of a double that is an integer, which is Python's [repr] of the
    float: the digits and [.0] below [1e16]; from there on the shortest
    decimal that converts back to the same double, in scientific
    notation. *)
Fixpoint strip_zeros (fuel : nat) (a : Z) : Z :=
  match fuel with
  | 0 => a
  | S fuel' =>
      if ((0 <? a)%Z && (a mod 10 =? 0)%Z)%bool
      then strip_zeros fuel' (a / 10)%Z else a
  end.

Definition decimal_digits (a : Z) : nat := String.length (pretty a).

Fixpoint shortest_decimal (a : Z) (n : nat) (ks : list nat) : Z :=
  match ks with
  | [] => a
  | k :: ks' =>
      let unit := (10 ^ Z.of_nat (n - k))%Z in
      let lo := (a / unit * unit)%Z in
      let hi := (lo + unit)%Z in
      let ok_lo := (to_float64 lo =? a)%Z in
      let ok_hi := (to_float64 hi =? a)%Z in
      if (ok_lo && ok_hi)%bool then
        if (a - lo <? hi - a)%Z then lo
        else if (hi - a <? a - lo)%Z then hi
        else if Z.even (lo / unit) then lo else hi
      else if ok_lo then lo
      else if ok_hi then hi
      else shortest_decimal a n ks'
  end.

Definition float_repr (x : Z) : string :=
  let a := Z.abs x in
  let sign := if (x <? 0)%Z then "-" else "" in
  if (a <? 10 ^ 16)%Z then sign +:+ pretty a +:+ ".0"
  else
    let c := shortest_decimal a (decimal_digits a) (seq 1 17) in
    let exponent := decimal_digits c - 1 in
    match pretty (strip_zeros 400 c) with
    | EmptyString => sign
    | String d EmptyString =>
        sign +:+ String d "e+" +:+ pretty exponent
    | String d rest =>
        sign +:+ String d ("." +:+ rest) +:+ "e+" +:+ pretty exponent
    end.

Definition number_str (x : number) : string :=
  match number_dtype x with
  | float64 => float_repr (number_value x)
  | _ => pretty (number_value x)
  end.

End np.

#[global] Instance number_le_dec : RelDecision np.number_le.
Proof. intros x y. unfold np.number_le. apply _. Defined.
#[global] Instance number_le_po : PartialOrder np.number_le.
Proof.
  split; [split|].
  - intros x. unfold np.number_le. lia.
  - intros x y z. unfold np.number_le. lia.
  - intros [dx vx] [dy vy]. unfold np.number_le, np.number_code. simpl.
    intros Hxy Hyx. assert (vx = vy) as ->.
    { destruct dx, dy; simpl in *; lia. }
    f_equal. destruct dx, dy; simpl in *; (done || lia).
Qed.
#[global] Instance number_le_total : Total np.number_le.
Proof. intros x y. unfold np.number_le. lia. Qed.

#[global] Instance number_Label : Label np.number :=
  {| label_le := np.number_le; str := np.number_str |}.

(** Python integers as raw labels. *)
#[global] Instance int_ArrayLike : ArrayLike Z :=
  {| Elem := np.number;
     asanyarray := np.array_of_ints;
     array_eq := np.number_eq |}.

(** ** networkx: the undirected [Graph] class

    A [Graph] keeps, per node and in insertion order, the node's attribute
    dict ([G.nodes[n]]) and its neighbours ([G.adj[n]]); the two dicts of
    the library always have the same keys, so one table holds both.  Edge
    attribute dicts are always empty here and are left out.  Nodes are
    natural numbers, attribute keys and values are strings. *)

Module networkx.

Record NodeData : Type := mkNodeData {
  attr : gmap string string;
  nbr : gset nat;
}.

Abbreviation Graph := (list (nat * NodeData)).

(** [networkx.Graph()]. *)
Definition new : Graph := [].

Definition empty_node : NodeData := {| attr := ∅; nbr := ∅ |}.

Fixpoint lookup_node (n : nat) (G : Graph) : option NodeData :=
  match G with
  | [] => None
  | (k, x) :: G' => if decide (k = n) then Some x else lookup_node n G'
  end.

(** [list(G.nodes)], [n in G], [G.nodes[n]], [G.adj[n]] (empty for a node
    that is not in the graph), [G.has_edge(u, v)]. *)
Definition nodes (G : Graph) : list nat := G.*1.
Definition has_node (G : Graph) (n : nat) : bool :=
  bool_decide (is_Some (lookup_node n G)).
Definition node_attr (G : Graph) (n : nat) : option (gmap string string) :=
  attr <$> lookup_node n G.
Definition adj (G : Graph) (u : nat) : gset nat :=
  from_option nbr ∅ (lookup_node u G).
Definition has_edge (G : Graph) (u v : nat) : bool :=
  bool_decide (v ∈ adj G u).
Definition number_of_nodes (G : Graph) : nat := length G.

(** The edge view [G.edges] reports every edge once; the pair is written
    with its smaller end first. *)
Definition edges_from (G : Graph) (u : nat) : gset (nat * nat) :=
  set_map (λ v, (u, v)) (filter (λ v, u ≤ v) (adj G u)).
Definition edges (G : Graph) : gset (nat * nat) :=
  ⋃ (edges_from G <$> nodes G).
Definition number_of_edges (G : Graph) : nat := size (edges G).

Fixpoint alter_node (f : NodeData → NodeData) (n : nat) (G : Graph) : Graph :=
  match G with
  | [] => []
  | (k, x) :: G' =>
      (k, if decide (k = n) then f x else x) :: alter_node f n G'
  end.

(** [if n not in self._node: self._adj[n] = {}; self._node[n] = {}]. *)
Definition ensure_node (n : nat) (G : Graph) : Graph :=
  if has_node G n then G else G ++ [(n, empty_node)].

Definition update_attr (d : gmap string string) (x : NodeData) : NodeData :=
  {| attr := d ∪ attr x; nbr := nbr x |}.
Definition add_nbr (v : nat) (x : NodeData) : NodeData :=
  {| attr := attr x; nbr := {[v]} ∪ nbr x |}.

(** One round of [G.add_nodes_from] on an entry [(n, d)]: the node is
    created when new, then [self._node[n].update(d)]. *)
Definition add_node (G : Graph) (e : nat * gmap string string) : Graph :=
  alter_node (update_attr e.2) e.1 (ensure_node e.1 G).

Definition add_nodes_from (es : list (nat * gmap string string)) (G : Graph)
  : Graph := foldl add_node G es.

(** [G.add_edge(u, v)]: both ends are created when new, then
    [self._adj[u][v] = {}] and [self._adj[v][u] = {}]. *)
Definition add_edge (u v : nat) (G : Graph) : Graph :=
  alter_node (add_nbr u) v
    (alter_node (add_nbr v) u (ensure_node v (ensure_node u G))).

End networkx.

(** ** featurizer.py *)

Module FingerprintCalculator.
Section with_rdkit.
Context `{RDKit}.

Record t : Type := mk {
  descriptor : string;
  descriptors : list (string * (Mol → Fingerprint));
}.

(** [FingerprintCalculator(descriptor)]; the Python default is ["morgan2"].
    The name is stored as it comes. *)
Definition __init__ {S} (descriptor : string) : M S t :=
  ret {|
    descriptor := descriptor;
    descriptors := [
      ("atompairs", λ m, GetAtomPairFingerprint m);
      ("maccs", λ m, GenMACCSKeys m);
      ("morgan2", λ m, GetMorganFingerprintAsBitVect m 2 2048);
      ("morgan3", λ m, GetMorganFingerprintAsBitVect m 3 2048);
      ("rdkit", λ m, FingerprintMol m);
      ("topo", λ m, GetTopologicalTorsionFingerprint m)
    ];
  |}.

Definition calculate_fingerprint (self : t) (smiles : string)
  : M Log Fingerprint :=
  mol <- Chem_MolFromSmiles smiles ;;
  match mol with
  | Some mol =>
      fn <- dict_getitem (descriptors self) (descriptor self) ;;
      ret (fn mol)
  | None => raise InvalidSMILESError
  end.

End with_rdkit.
End FingerprintCalculator.

(** ** similarity.py *)

Module SimilarityCalculator.
Section with_rdkit.
Context `{RDKit}.

(** The values of the [metrics] dict are callables of two kinds: the
    [DataStructs] functions take two fingerprints (and are taken to score
    them, see the toolkit interface), the ["tversky"] lambda has four
    required parameters [m1, m2, alpha, beta]. *)
Inductive callable : Type :=
| Fn2 (f : Fingerprint → Fingerprint → Qc)
| Fn4 (f : Fingerprint → Fingerprint → Qc → Qc → Qc).

(** [fn(a, b)]: a call with two positional arguments. *)
Definition call2 {S} (fn : callable) (a b : Fingerprint) : M S Qc :=
  match fn with
  | Fn2 f => ret (f a b)
  | Fn4 _ => raise TypeError
  end.

Record t : Type := mk {
  sim_metric : string;
  metrics : list (string * callable);
}.

(** [SimilarityCalculator(sim_metric)]; the Python default is ["tanimoto"]. *)
Definition __init__ {S} (sim_metric : string) : M S t :=
  ret {|
    sim_metric := sim_metric;
    metrics := [
      ("asymmetric", Fn2 AsymmetricSimilarity);
      ("braunblanquet", Fn2 BraunBlanquetSimilarity);
      ("cosine", Fn2 CosineSimilarity);
      ("dice", Fn2 DiceSimilarity);
      ("kulczynski", Fn2 KulczynskiSimilarity);
      ("mcconnaughey", Fn2 McConnaugheySimilarity);
      ("onbit", Fn2 OnBitSimilarity);
      ("rogotgoldberg", Fn2 RogotGoldbergSimilarity);
      ("russel", Fn2 RusselSimilarity);
      ("sokal", Fn2 SokalSimilarity);
      ("tanimoto", Fn2 TanimotoSimilarity);
      ("tversky", Fn4 (λ m1 m2 alpha beta, TverskySimilarity m1 m2 alpha beta))
    ];
  |}.

(** [max(metric(fp1, fp2), metric(fp2, fp1))], arguments evaluated left to
    right. *)
Definition calculate_similarity {S} (self : t) (fp1 fp2 : Fingerprint)
  : M S Qc :=
  fn <- dict_getitem (metrics self) (sim_metric self) ;;
  s12 <- call2 fn fp1 fp2 ;;
  fn <- dict_getitem (metrics self) (sim_metric self) ;;
  s21 <- call2 fn fp2 fp1 ;;
  ret (Py.max s12 s21).

End with_rdkit.
End SimilarityCalculator.

(** ** graph.py *)

Module MolecularNetwork.
Import networkx.
Section with_rdkit.
Context `{RDKit}.

Record t : Type := mk {
  sim_threshold : Qc;
  fingerprint_calculator : FingerprintCalculator.t;
  similarity_calculator : SimilarityCalculator.t;
  graph : Graph;
}.

(** The methods run on the builder and on the log of parser calls. *)
Abbreviation St := (t * Log)%type.

Definition self : M St t := λ st, (inr st.1, st).

(** A mutation of the graph object held in [self.graph]. *)
Definition with_graph (f : Graph → Graph) (b : t) : t :=
  {| sim_threshold := sim_threshold b;
     fingerprint_calculator := fingerprint_calculator b;
     similarity_calculator := similarity_calculator b;
     graph := f (graph b) |}.
Definition on_graph (f : Graph → Graph) : M St unit :=
  modify (λ st : St, (with_graph f st.1, st.2)).

(** [MolecularNetwork(descriptor, sim_metric, sim_threshold)]; the Python
    defaults are ["morgan2"], ["tanimoto"] and [0.7]. *)
Definition __init__ (descriptor sim_metric : string) (sim_threshold : Qc)
  : M Log t :=
  fc <- FingerprintCalculator.__init__ descriptor ;;
  sc <- SimilarityCalculator.__init__ sim_metric ;;
  ret {| sim_threshold := sim_threshold;
         fingerprint_calculator := fc;
         similarity_calculator := sc;
         graph := networkx.new |}.

Definition _calculate_fingerprints (smiles_list : list string)
  : M St (list Fingerprint) :=
  comprehension
    (λ smi,
       this <- self ;;
       zoom_snd (FingerprintCalculator.calculate_fingerprint
                   (fingerprint_calculator this) smi))
    smiles_list.

(** [np.unique(classes)] starts with [np.asanyarray(classes)]; the loop
    runs over the raw labels and compares each with the elements of
    [unique_classes]. *)
Definition _convert_classes {S} `{ArrayLike R} (classes : list R)
  : M S (list (Elem R) * list nat) :=
  let unique_classes := np.unique (asanyarray classes) in
  let categorical_labels := np.arange (length unique_classes) in
  class_labels <-
    comprehension
      (λ c,
         i <- getitem
                (np.where_ ((λ x, array_eq x c) <$> unique_classes)) 0 ;;
         getitem categorical_labels i)
      classes ;;
  ret (unique_classes, class_labels).

Definition _add_nodes `{Label L} (smiles_list : list string)
  (unique_classes : list L) (categorical_labels : list nat) : M St unit :=
  let num_nodes := length smiles_list in
  let nodes := seq 0 num_nodes in
  weighted_nodes <-
    comprehension
      (λ '(node, value),
         smiles <- getitem smiles_list node ;;
         c <- getitem unique_classes value ;;
         ret (node, ({[ "smiles" := smiles;
                        "categorical_label" := str c ]} : gmap string string)))
      (zip nodes categorical_labels) ;;
  on_graph (add_nodes_from weighted_nodes).

Definition _calculate_similarity (fp1 fp2 : Fingerprint) : M St Qc :=
  this <- self ;;
  SimilarityCalculator.calculate_similarity
    (similarity_calculator this) fp1 fp2.

Definition _add_edges (fps : list Fingerprint) : M St unit :=
  let num_nodes := length fps in
  for_each (seq 0 num_nodes) (λ i,
    for_each (seq (i + 1) (num_nodes - (i + 1))) (λ j,
      fp_i <- getitem fps i ;;
      fp_j <- getitem fps j ;;
      sim_val <- _calculate_similarity fp_i fp_j ;;
      this <- self ;;
      if Py.gt sim_val (sim_threshold this)
      then on_graph (add_edge i j)
      else ret tt)).

Definition _create_graph `{ArrayLike R} (smiles_list : list string)
  (classes : list R) : M St unit :=
  fps <- _calculate_fingerprints smiles_list ;;
  converted <- _convert_classes classes ;;
  let '(unique_classes, categorical_labels) := converted in
  _add_nodes smiles_list unique_classes categorical_labels ;;
  _add_edges fps.

Definition create_graph `{ArrayLike R} (smiles_list : list string)
  (classes : list R) : M St Graph :=
  _create_graph smiles_list classes ;;
  this <- self ;;
  ret (graph this).

Definition get_network : M St Graph :=
  this <- self ;;
  ret (graph this).

End with_rdkit.
End MolecularNetwork.

(** ** A stub toolkit

    A small instance of the toolkit interface, used to run the package on
    concrete inputs: a string parses when it is written with the characters
    [C N O c n o ( ) = # 1 2] only, the fingerprint of a molecule is its
    number of characters, and every two-argument metric scores two
    fingerprints by the ratio of the smaller to the larger. *)

Module Stub.

Definition smiles_char (a : ascii) : bool :=
  bool_decide (a ∈ list_ascii_of_string "CNOcno()=#12").

Definition parse (s : string) : option string :=
  if forallb smiles_char (list_ascii_of_string s) then Some s else None.

Definition ratio (a b : nat) : Qc :=
  Q2Qc (Z.of_nat (a `min` b) # Pos.of_nat (a `max` b)).

#[export] Instance toolkit : RDKit := {|
  Mol := string;
  Fingerprint := nat;
  MolFromSmiles := parse;
  GetAtomPairFingerprint := String.length;
  GenMACCSKeys := String.length;
  GetMorganFingerprintAsBitVect := λ m _ _, String.length m;
  FingerprintMol := String.length;
  GetTopologicalTorsionFingerprint := String.length;
  AsymmetricSimilarity := ratio;
  BraunBlanquetSimilarity := ratio;
  CosineSimilarity := ratio;
  DiceSimilarity := ratio;
  KulczynskiSimilarity := ratio;
  McConnaugheySimilarity := ratio;
  OnBitSimilarity := ratio;
  RogotGoldbergSimilarity := ratio;
  RusselSimilarity := ratio;
  SokalSimilarity := ratio;
  TanimotoSimilarity := ratio;
  TverskySimilarity := λ a b _ _, ratio a b;
|}.

(** A builder as the constructor leaves it. *)
Definition builder (descriptor sim_metric : string) (sim_threshold : Qc)
  : MolecularNetwork.t :=
  match MolecularNetwork.__init__ descriptor sim_metric sim_threshold [] with
  | (inr b, _) => b
  | (inl _, _) =>
      MolecularNetwork.mk sim_threshold
        (FingerprintCalculator.mk descriptor [])
        (SimilarityCalculator.mk sim_metric []) networkx.new
  end.

(** The builder of [MolecularNetwork()], with the Python defaults. *)
Definition default_builder : MolecularNetwork.t :=
  builder "morgan2" "tanimoto" (Q2Qc (7 # 10)).

End Stub.

(** ** Vocabulary of the specification *)

(** A triple for the computations of [Py.M]: from a state satisfying [P], the
    outcome (the value or the exception) and the state reached satisfy [Q]. *)
Definition triple {S A} (P : S → Prop) (m : M S A)
  (Q : Result A → S → Prop) : Prop :=
  ∀ s, P s → Q (m s).1 (m s).2.

(** The position [_convert_classes] computes for one label:
    [np.where(vocabulary == c)[0][0]]. *)
Definition index_in `{Label L} (vocabulary : list L) (c : L) : nat :=
  default 0 (np.where_eq vocabulary c !! 0).

Section pipeline.
Context `{RDKit}.
Import networkx MolecularNetwork.

(** The callables a builder is configured with, when its names are keys of
    the two tables. *)
Definition descriptor_fn (b : MolecularNetwork.t)
  : option (Mol → Fingerprint) :=
  dict_get (FingerprintCalculator.descriptors (fingerprint_calculator b))
    (FingerprintCalculator.descriptor (fingerprint_calculator b)).
Definition metric_fn (b : MolecularNetwork.t)
  : option SimilarityCalculator.callable :=
  dict_get (SimilarityCalculator.metrics (similarity_calculator b))
    (SimilarityCalculator.sim_metric (similarity_calculator b)).

(** The entries [_add_nodes] hands to [add_nodes_from]. *)
Definition node_entry `{Label L} (node : nat) (sc : string * L)
  : nat * gmap string string :=
  (node, {[ "smiles" := sc.1; "categorical_label" := str sc.2 ]}).
Definition node_entries `{Label L} (smiles_list : list string)
  (classes : list L) : list (nat * gmap string string) :=
  imap node_entry (zip smiles_list classes).

(** The pairs [(i, j)] the two loops of [_add_edges] visit, in order. *)
Definition pairs (num_nodes : nat) : list (nat * nat) :=
  seq 0 num_nodes ≫= λ i, pair i <$> seq (i + 1) (num_nodes - (i + 1)).

(** What [calculate_similarity] returns on positions [i] and [j] for a
    two-argument metric [f], and the test of [_add_edges] on it. *)
Definition score (f : Fingerprint → Fingerprint → Qc)
  (fps : list Fingerprint) (i j : nat) : option Qc :=
  fp_i ← fps !! i; fp_j ← fps !! j;
  Some (Py.max (f fp_i fp_j) (f fp_j fp_i)).
Definition linked (thr : Qc) (f : Fingerprint → Fingerprint → Qc)
  (fps : list Fingerprint) (i j : nat) : bool :=
  from_option (λ s, Py.gt s thr) false (score f fps i j).

(** One round of the inner loop, and the whole of [_add_edges], on the
    graph. *)
Definition link (thr : Qc) (f : Fingerprint → Fingerprint → Qc)
  (fps : list Fingerprint) (G : Graph) (ij : nat * nat) : Graph :=
  if linked thr f fps ij.1 ij.2 then add_edge ij.1 ij.2 G else G.
Definition add_edges_of (thr : Qc) (f : Fingerprint → Fingerprint → Qc)
  (fps : list Fingerprint) (G : Graph) : Graph :=
  foldl (link thr f fps) G (pairs (length fps)).

(** The builders a program can hold: the constructor's, and the one any
    call of [create_graph] leaves behind, whether it returns or raises. *)
Inductive built : MolecularNetwork.t → Prop :=
| built_init descriptor sim_metric thr log b log' :
    MolecularNetwork.__init__ descriptor sim_metric thr log = (inr b, log') →
    built b
| built_create_graph (L : Type) (HL : Label L) smiles_list
    (classes : list L) b log r b' log' :
    built b →
    create_graph smiles_list classes (b, log) = (r, (b', log')) →
    built b'.

(** What a call of [create_graph] does to the graph object, whether it
    returns or raises: nothing when an identifier does not parse or the
    descriptor name is not a key; else the node entries are added, and then
    the edges when the metric is a two-argument one. *)
Definition growth `{Label L} (b : MolecularNetwork.t)
  (smiles_list : list string) (classes : list L) (G : Graph) : Graph :=
  match mapM MolFromSmiles smiles_list, descriptor_fn b with
  | Some mols, Some D =>
      let G1 := add_nodes_from (node_entries smiles_list classes) G in
      match metric_fn b with
      | Some (SimilarityCalculator.Fn2 f) =>
          add_edges_of (sim_threshold b) f (D <$> mols) G1
      | _ => G1
      end
  | _, _ => G
  end.

(** Two builders constructed with the same names and thresholds
    [t1 <= t2] that have been through the same calls of [create_graph]. *)
Inductive in_step : MolecularNetwork.t → MolecularNetwork.t → Prop :=
| in_step_init descriptor sim_metric (thr1 thr2 : Qc) log1 log2
    b1 b2 log1' log2' :
    (thr1 ≤ thr2)%Qc →
    MolecularNetwork.__init__ descriptor sim_metric thr1 log1
    = (inr b1, log1') →
    MolecularNetwork.__init__ descriptor sim_metric thr2 log2
    = (inr b2, log2') →
    in_step b1 b2
| in_step_create_graph (L : Type) (HL : Label L) smiles_list
    (classes : list L) b1 b2 log1 log2 r1 r2 b1' b2' log1' log2' :
    in_step b1 b2 →
    create_graph smiles_list classes (b1, log1) = (r1, (b1', log1')) →
    create_graph smiles_list classes (b2, log2) = (r2, (b2', log2')) →
    in_step b1' b2'.

(** A simple undirected graph: adjacency is symmetric, no node is its own
    neighbour, and the edge view holds each edge in one orientation only. *)
Definition simple (G : Graph) : Prop :=
  (∀ u v, has_edge G u v = has_edge G v u) ∧
  (∀ u, has_edge G u u = false) ∧
  (∀ u v, (u, v) ∈ edges G → (v, u) ∉ edges G).

(** The merge of what a node holds in two graphs: attributes of the first
    win, neighbours add up. *)
Definition merge_node (x y : NodeData) : NodeData :=
  {| attr := attr x ∪ attr y; nbr := nbr x ∪ nbr y |}.
Definition merge_lookup (x y : option NodeData) : option NodeData :=
  union_with (λ x y, Some (merge_node x y)) x y.

End pipeline.

(** The names that are keys of the two tables. *)
Definition supported_descriptors : list string :=
  ["atompairs"; "maccs"; "morgan2"; "morgan3"; "rdkit"; "topo"].
Definition supported_metrics : list string :=
  ["asymmetric"; "braunblanquet"; "cosine"; "dice"; "kulczynski";
   "mcconnaughey"; "onbit"; "rogotgoldberg"; "russel"; "sokal"; "tanimoto";
   "tversky"].

(** * Facts *)

(** ** The monad *)

Section monad_facts.
Context {St : Type}.
Implicit Types s : St.

Lemma triple_ret {A} (P : St → Prop) (a : A) (Q : Result A → St → Prop) :
  (∀ s, P s → Q (inr a) s) → triple P (ret a) Q.
Proof. intros HQ s Hs. by apply HQ. Qed.

Lemma triple_bind {A B} (P : St → Prop) (m : M St A) (k : A → M St B)
  (Q : Result A → St → Prop) (R : Result B → St → Prop) :
  triple P m Q →
  (∀ a, triple (Q (inr a)) (k a) R) →
  (∀ e s, Q (inl e) s → R (inl e) s) →
  triple P (bind m k) R.
Proof.
  intros Hm Hk He s Hs. specialize (Hm s Hs). unfold bind.
  destruct (m s) as [[e|a] s']; simpl in *.
  - by apply He.
  - by apply Hk.
Qed.

(** Computations that leave the state as it is, whatever they return. *)
Lemma bind_unchanged {A B} (m : M St A) (k : A → M St B) s :
  (∀ s, (m s).2 = s) → (∀ a s, (k a s).2 = s) → (bind m k s).2 = s.
Proof.
  intros Hm Hk. unfold bind. specialize (Hm s).
  destruct (m s) as [[e|a] s']; simpl in *; [done|]. by rewrite Hk.
Qed.

Lemma getitem_unchanged {A} (l : list A) i s : (getitem l i s).2 = s.
Proof. unfold getitem. by destruct (l !! i). Qed.

Lemma dict_getitem_unchanged {V} (d : list (string * V)) key s :
  (dict_getitem d key s).2 = s.
Proof. unfold dict_getitem. by destruct (dict_get d key). Qed.

Lemma comprehension_unchanged {A B} (f : A → M St B) l s :
  (∀ x s, (f x s).2 = s) → (comprehension f l s).2 = s.
Proof.
  intros Hf. revert s. induction l as [|x l IH]; intros s; [done|].
  simpl. apply bind_unchanged; [apply Hf|]. intros y s'.
  apply bind_unchanged; [apply IH|done].
Qed.

(** An invariant of the state is kept by a sequence, a loop or a
    comprehension whose parts keep it, whether they return or raise. *)
Lemma keeps_unchanged {A} (I : St → Prop) (m : M St A) :
  (∀ s, (m s).2 = s) → triple I m (λ _, I).
Proof. intros Hm s Hs. by rewrite Hm. Qed.

Lemma keeps_bind {A B} (I : St → Prop) (m : M St A) (k : A → M St B) :
  triple I m (λ _, I) → (∀ a, triple I (k a) (λ _, I)) →
  triple I (bind m k) (λ _, I).
Proof. intros Hm Hk. eapply triple_bind; [exact Hm|exact Hk|done]. Qed.

Lemma keeps_for_each {A} (I : St → Prop) (l : list A)
    (body : A → M St unit) :
  (∀ x, x ∈ l → triple I (body x) (λ _, I)) →
  triple I (for_each l body) (λ _, I).
Proof.
  induction l as [|x l IH]; intros Hbody.
  - by apply triple_ret.
  - simpl. apply keeps_bind; [apply Hbody; left|].
    intros _. apply IH. intros y Hy. apply Hbody. by right.
Qed.

Lemma keeps_comprehension {A B} (I : St → Prop) (l : list A)
    (f : A → M St B) :
  (∀ x, x ∈ l → triple I (f x) (λ _, I)) →
  triple I (comprehension f l) (λ _, I).
Proof.
  induction l as [|x l IH]; intros Hf.
  - by apply triple_ret.
  - simpl. apply keeps_bind; [apply Hf; left|].
    intros y. apply keeps_bind.
    + apply IH. intros z Hz. apply Hf. by right.
    + intros ys. by apply triple_ret.
Qed.

Lemma comprehension_pure {A B} (f : A → M St B) (g : A → B) l s :
  (∀ x, x ∈ l → f x s = (inr (g x), s)) →
  comprehension f l s = (inr (g <$> l), s).
Proof.
  induction l as [|x l IH]; intros Hf; [done|].
  simpl. unfold bind. rewrite Hf by left.
  rewrite IH; [done|]. intros y Hy. apply Hf. by right.
Qed.

End monad_facts.

(** ** The graph operations *)

Section graph_facts.
Import networkx.
Implicit Types (G : Graph) (n m u v : nat).

Lemma lookup_alter_node f n G m :
  lookup_node m (alter_node f n G)
  = if decide (n = m) then f <$> lookup_node m G else lookup_node m G.
Proof.
  induction G as [|[k x] G IH]; simpl.
  - by case_decide.
  - repeat case_decide; simplify_eq/=; try done.
Qed.

Lemma lookup_node_app m G G' :
  lookup_node m (G ++ G')
  = match lookup_node m G with
    | Some x => Some x
    | None => lookup_node m G'
    end.
Proof.
  induction G as [|[k x] G IH]; simpl; [done|]. by case_decide.
Qed.

Lemma has_node_is_Some G n : has_node G n = true ↔ is_Some (lookup_node n G).
Proof. unfold has_node. by rewrite bool_decide_eq_true. Qed.

Lemma elem_of_nodes G n : n ∈ nodes G ↔ is_Some (lookup_node n G).
Proof.
  unfold nodes. induction G as [|[k x] G IH]; simpl.
  - rewrite elem_of_nil. split; [done|]. by intros [? ?].
  - rewrite elem_of_cons, IH. case_decide; subst.
    + split; eauto.
    + split; [intros [?|?]; [congruence|done] | auto].
Qed.

Lemma lookup_ensure_node n G m :
  lookup_node m (ensure_node n G)
  = if decide (n = m) then Some (default empty_node (lookup_node m G))
    else lookup_node m G.
Proof.
  unfold ensure_node. destruct (has_node G n) eqn:Hn.
  - apply has_node_is_Some in Hn as [x Hx].
    case_decide; subst; [by rewrite Hx|done].
  - assert (lookup_node n G = None) as Hnone.
    { apply eq_None_not_Some. rewrite <-has_node_is_Some. congruence. }
    rewrite lookup_node_app. simpl.
    repeat case_decide; subst; try done.
    + by rewrite Hnone.
    + by destruct (lookup_node m G).
Qed.

Lemma lookup_add_node G e m :
  lookup_node m (add_node G e)
  = if decide (e.1 = m)
    then Some (update_attr e.2 (default empty_node (lookup_node m G)))
    else lookup_node m G.
Proof.
  unfold add_node. rewrite lookup_alter_node, lookup_ensure_node.
  by case_decide.
Qed.

Lemma adj_add_node G e m : adj (add_node G e) m = adj G m.
Proof.
  unfold adj. rewrite lookup_add_node. case_decide; [|done].
  simpl. by destruct (lookup_node m G).
Qed.

Lemma adj_add_nodes_from es G m : adj (add_nodes_from es G) m = adj G m.
Proof.
  unfold add_nodes_from. revert G.
  induction es as [|e es IH]; intros G; simpl; [done|].
  by rewrite IH, adj_add_node.
Qed.

Lemma adj_add_edge u v G m :
  adj (add_edge u v G) m
  = (if decide (m = u) then {[v]} else ∅) ∪
    (if decide (m = v) then {[u]} else ∅) ∪ adj G m.
Proof.
  unfold adj, add_edge.
  rewrite !lookup_alter_node, !lookup_ensure_node.
  destruct (decide (u = m)), (decide (v = m)),
    (decide (m = u)), (decide (m = v)); try congruence;
    destruct (lookup_node m G); simpl; set_solver.
Qed.

Lemma has_edge_add_edge u v G a b :
  has_edge (add_edge u v G) a b = true
  ↔ has_edge G a b = true ∨ (a = u ∧ b = v) ∨ (a = v ∧ b = u).
Proof.
  unfold has_edge. rewrite !bool_decide_eq_true, adj_add_edge.
  repeat case_decide; set_solver.
Qed.

Lemma has_edge_add_nodes_from es G a b :
  has_edge (add_nodes_from es G) a b = has_edge G a b.
Proof. unfold has_edge. by rewrite adj_add_nodes_from. Qed.

Lemma has_edge_has_node G u v : has_edge G u v = true → u ∈ nodes G.
Proof.
  unfold has_edge, adj. rewrite bool_decide_eq_true, elem_of_nodes.
  destruct (lookup_node u G); simpl; [eauto|set_solver].
Qed.

Lemma elem_of_edges G u v :
  (u, v) ∈ edges G ↔ u ≤ v ∧ has_edge G u v = true.
Proof.
  unfold edges. rewrite elem_of_union_list. split.
  - intros (X & HX & Huv). apply list_elem_of_fmap in HX as (w & -> & Hw).
    unfold edges_from in Huv. apply elem_of_map in Huv as (v' & ? & Hv').
    simplify_eq. apply elem_of_filter in Hv' as [? ?].
    split; [done|]. unfold has_edge. by rewrite bool_decide_eq_true.
  - intros [Hle He]. exists (edges_from G u). split.
    + apply list_elem_of_fmap. exists u. split; [done|].
      by eapply has_edge_has_node.
    + unfold edges_from. apply elem_of_map. exists v. split; [done|].
      apply elem_of_filter. split; [done|].
      unfold has_edge in He. by rewrite bool_decide_eq_true in He.
Qed.

Lemma nodes_alter_node f n G : nodes (alter_node f n G) = nodes G.
Proof.
  unfold nodes. induction G as [|[k x] G IH]; [done|].
  rewrite !fmap_cons. simpl alter_node. by f_equal/=.
Qed.

Lemma nodes_ensure_node n G :
  nodes (ensure_node n G)
  = if decide (n ∈ nodes G) then nodes G else nodes G ++ [n].
Proof.
  unfold ensure_node. destruct (has_node G n) eqn:Hn.
  - apply has_node_is_Some, elem_of_nodes in Hn. by rewrite decide_True.
  - rewrite decide_False.
    + unfold nodes. by rewrite fmap_app.
    + rewrite elem_of_nodes, <-has_node_is_Some. congruence.
Qed.

Lemma nodes_add_node G e :
  nodes (add_node G e)
  = if decide (e.1 ∈ nodes G) then nodes G else nodes G ++ [e.1].
Proof. unfold add_node. by rewrite nodes_alter_node, nodes_ensure_node. Qed.

Lemma nodes_add_edge_present u v G :
  u ∈ nodes G → v ∈ nodes G → nodes (add_edge u v G) = nodes G.
Proof.
  intros Hu Hv. unfold add_edge.
  rewrite !nodes_alter_node, !nodes_ensure_node.
  rewrite (decide_True _ _ Hu). by rewrite decide_True.
Qed.

End graph_facts.

(** ** The Label Normalizer *)

Section label_facts.
Context `{Label L}.
Implicit Types (ar aux : list L) (c x y : L).

Lemma elem_of_drop_repeats prev aux y :
  y ∈ prev :: np.drop_repeats prev aux ↔ y ∈ prev :: aux.
Proof.
  revert prev. induction aux as [|x aux IH]; intros prev; simpl; [done|].
  case_decide as Hx; subst.
  - rewrite IH. set_solver.
  - rewrite !(elem_of_cons _ y prev), IH. done.
Qed.

Lemma sorted_drop_repeats prev aux :
  StronglySorted label_le (prev :: aux) →
  StronglySorted (strict label_le) (prev :: np.drop_repeats prev aux).
Proof.
  revert prev. induction aux as [|x aux IH]; intros prev Hs; simpl.
  { repeat constructor. }
  apply StronglySorted_inv in Hs as [Hs Hprev].
  apply Forall_cons in Hprev as [Hpx Hprev].
  case_decide as Hx; subst; [by apply IH|].
  specialize (IH x Hs).
  assert (strict label_le prev x) as Hlt.
  { split; [done|]. intros Hxp. apply Hx. by apply (anti_symm label_le). }
  constructor; [done|]. constructor; [done|].
  apply StronglySorted_inv in IH as [_ IH].
  eapply Forall_impl; [exact IH|]. intros y [Hxy Hyx]. split.
  - by etrans.
  - intros Hyp. apply Hyx. by etrans.
Qed.

(** [np.unique] returns the distinct values in increasing order. *)
Lemma unique_sorted ar : StronglySorted (strict label_le) (np.unique ar).
Proof.
  unfold np.unique.
  pose proof (StronglySorted_merge_sort label_le ar) as Hs.
  destruct (merge_sort label_le ar) as [|x aux]; [constructor|].
  by apply sorted_drop_repeats.
Qed.

Lemma elem_of_unique ar y : y ∈ np.unique ar ↔ y ∈ ar.
Proof.
  unfold np.unique. rewrite <-(merge_sort_Permutation label_le ar) at 2.
  destruct (merge_sort label_le ar) as [|x aux]; [done|].
  apply elem_of_drop_repeats.
Qed.

Lemma unique_NoDup ar : NoDup (np.unique ar).
Proof.
  pose proof (unique_sorted ar) as Hs.
  induction Hs as [|x l Hs IH Hx]; constructor; [|done].
  intros Hin. rewrite Forall_forall in Hx.
  destruct (Hx x Hin) as [Hle Hnle]. by apply Hnle.
Qed.

Lemma unique_nil : np.unique (@nil L) = [].
Proof. done. Qed.

Lemma where_from_head i ar c :
  c ∈ ar →
  ∃ k, np.where_from i ((λ x, bool_decide (x = c)) <$> ar) !! 0
       = Some (i + k) ∧ ar !! k = Some c.
Proof.
  revert i. induction ar as [|x ar IH]; intros i Hc.
  { by apply elem_of_nil in Hc. }
  simpl. case_bool_decide as Hx; subst.
  - exists 0. by rewrite Nat.add_0_r.
  - apply elem_of_cons in Hc as [?|Hc]; [congruence|].
    destruct (IH (S i) Hc) as (k & Hk & Hark).
    exists (S k). split; [|done].
    by replace (i + S k) with (S i + k) by lia.
Qed.

Lemma index_in_lookup ar c : c ∈ ar → ar !! index_in ar c = Some c.
Proof.
  intros Hc. unfold index_in, np.where_eq, np.where_.
  destruct (where_from_head 0 ar c Hc) as (k & -> & Hk). done.
Qed.

Lemma convert_classes_run {St} (classes : list L) (s : St) :
  MolecularNetwork._convert_classes classes s
  = (inr (np.unique classes, index_in (np.unique classes) <$> classes), s).
Proof.
  unfold MolecularNetwork._convert_classes, bind.
  rewrite (comprehension_pure _ (index_in (np.unique classes))); [done|].
  intros c Hc. apply elem_of_unique in Hc.
  unfold index_in, np.where_eq, np.where_, bind, getitem. simpl.
  destruct (where_from_head 0 (np.unique classes) c Hc) as (k & -> & Hk).
  simpl. unfold np.arange. rewrite lookup_seq_lt; [done|].
  by eapply lookup_lt_Some.
Qed.

End label_facts.

(** ** Raw labels that the array keeps apart *)

Section conversion_facts.
Context `{ArrayLike R}.
Implicit Types (classes : list R) (stored : R → Elem R).

Lemma where_from_test_head {A} (test : A → bool) i (ar : list A) y :
  y ∈ ar → test y = true →
  ∃ k x, np.where_from i (test <$> ar) !! 0 = Some (i + k) ∧
         ar !! k = Some x ∧ test x = true.
Proof.
  revert i. induction ar as [|x ar IH]; intros i Hy Hty.
  { by apply elem_of_nil in Hy. }
  simpl. destruct (test x) eqn:Hx.
  - exists 0, x. by rewrite Nat.add_0_r.
  - apply elem_of_cons in Hy as [->|Hy]; [congruence|].
    destruct (IH (S i) Hy Hty) as (k & x' & Hk & Hark & Hx').
    exists (S k), x'. split_and!; [|done..].
    by replace (i + S k) with (S i + k) by lia.
Qed.

(** When the conversion stores every label as an element of its own, which
    [==] identifies with that label only, [_convert_classes] returns the
    sorted distinct stored labels, and for each label the position of its
    stored form. *)
Lemma convert_classes_stored_run {St} classes stored (s : St) :
  asanyarray classes = stored <$> classes →
  (∀ x c, x ∈ classes → c ∈ classes →
          array_eq (stored x) c = true ↔ x = c) →
  MolecularNetwork._convert_classes classes s
  = (inr (np.unique (stored <$> classes),
          index_in (np.unique (stored <$> classes))
            <$> (stored <$> classes)), s).
Proof.
  intros Harray Heq. unfold MolecularNetwork._convert_classes, bind.
  rewrite Harray, <-list_fmap_compose.
  rewrite (comprehension_pure _
             (index_in (np.unique (stored <$> classes)) ∘ stored));
    [done|].
  intros c Hc. unfold bind, getitem, np.where_.
  assert (stored c ∈ np.unique (stored <$> classes)) as Hin.
  { apply elem_of_unique, list_elem_of_fmap. eauto. }
  destruct (where_from_test_head (λ x, array_eq x c) 0
              (np.unique (stored <$> classes)) (stored c) Hin)
    as (k & e & -> & Hk & He); [by apply Heq|].
  assert (e = stored c) as ->.
  { apply list_elem_of_lookup_2, elem_of_unique, list_elem_of_fmap in Hk
      as (x & -> & Hx).
    f_equal. by apply Heq. }
  assert (index_in (np.unique (stored <$> classes)) (stored c) = k) as Hidx.
  { eapply NoDup_lookup;
      [apply (unique_NoDup (stored <$> classes))| |exact Hk].
    by apply index_in_lookup. }
  simpl. unfold np.arange. rewrite lookup_seq_lt by (by eapply lookup_lt_Some).
  by rewrite Hidx.
Qed.

End conversion_facts.

(** ** Descriptor computation *)

Section fingerprint_facts.
Context `{RDKit}.
Import MolecularNetwork.
Implicit Types (b : MolecularNetwork.t) (log : Log).

Lemma calculate_fingerprint_ok fc smi mol D log :
  MolFromSmiles smi = Some mol →
  dict_get (FingerprintCalculator.descriptors fc)
    (FingerprintCalculator.descriptor fc) = Some D →
  FingerprintCalculator.calculate_fingerprint fc smi log
  = (inr (D mol), log ++ [smi]).
Proof.
  intros Hmol HD.
  unfold FingerprintCalculator.calculate_fingerprint, bind,
    Chem_MolFromSmiles, dict_getitem.
  by rewrite Hmol, HD.
Qed.

Lemma calculate_fingerprint_invalid fc smi log :
  MolFromSmiles smi = None →
  FingerprintCalculator.calculate_fingerprint fc smi log
  = (inl InvalidSMILESError, log ++ [smi]).
Proof.
  intros Hmol.
  unfold FingerprintCalculator.calculate_fingerprint, bind, Chem_MolFromSmiles.
  by rewrite Hmol.
Qed.

Lemma calculate_fingerprint_unknown fc smi mol log :
  MolFromSmiles smi = Some mol →
  dict_get (FingerprintCalculator.descriptors fc)
    (FingerprintCalculator.descriptor fc) = None →
  FingerprintCalculator.calculate_fingerprint fc smi log
  = (inl (KeyError (FingerprintCalculator.descriptor fc)), log ++ [smi]).
Proof.
  intros Hmol HD.
  unfold FingerprintCalculator.calculate_fingerprint, bind,
    Chem_MolFromSmiles, dict_getitem.
  by rewrite Hmol, HD.
Qed.

(** Every identifier parses: the fingerprints come back in input order, the
    builder is untouched and each identifier went to the parser once. *)
Lemma calculate_fingerprints_ok b log smiles_list mols D :
  Forall2 (λ smi mol, MolFromSmiles smi = Some mol) smiles_list mols →
  descriptor_fn b = Some D →
  _calculate_fingerprints smiles_list (b, log)
  = (inr (D <$> mols), (b, log ++ smiles_list)).
Proof.
  intros Hparse HD. revert log.
  induction Hparse as [|smi mol smiles_list mols Hmol _ IH]; intros log.
  { simpl. by rewrite app_nil_r. }
  unfold _calculate_fingerprints in *. simpl.
  unfold bind at 1. unfold bind at 1. simpl. unfold zoom_snd. simpl.
  rewrite (calculate_fingerprint_ok _ _ _ _ _ Hmol HD).
  unfold bind at 1. rewrite IH. simpl. by rewrite <-app_assoc.
Qed.

(** The first identifier that does not parse ends the comprehension: the
    parser has seen the identifiers up to it and none after it. *)
Lemma calculate_fingerprints_invalid b log pre bad post mols :
  Forall2 (λ smi mol, MolFromSmiles smi = Some mol) pre mols →
  (pre ≠ [] → is_Some (descriptor_fn b)) →
  MolFromSmiles bad = None →
  _calculate_fingerprints (pre ++ bad :: post) (b, log)
  = (inl InvalidSMILESError, (b, log ++ pre ++ [bad])).
Proof.
  intros Hparse HD Hbad. revert log.
  induction Hparse as [|smi mol pre mols Hmol _ IH]; intros log.
  - unfold _calculate_fingerprints. simpl.
    unfold bind at 1. unfold bind at 1. simpl. unfold zoom_snd. simpl.
    by rewrite (calculate_fingerprint_invalid _ _ _ Hbad).
  - destruct (HD ltac:(done)) as [D HD'].
    unfold _calculate_fingerprints in *. simpl.
    unfold bind at 1. unfold bind at 1. simpl. unfold zoom_snd. simpl.
    rewrite (calculate_fingerprint_ok _ _ _ _ _ Hmol HD').
    unfold bind at 1. rewrite IH by eauto. simpl. by rewrite <-app_assoc.
Qed.

(** With a descriptor name that is not a key of the table, the lookup fails
    on the first identifier, provided it parses. *)
Lemma calculate_fingerprints_unknown b log smi mol rest :
  MolFromSmiles smi = Some mol →
  descriptor_fn b = None →
  _calculate_fingerprints (smi :: rest) (b, log)
  = (inl (KeyError
            (FingerprintCalculator.descriptor (fingerprint_calculator b))),
     (b, log ++ [smi])).
Proof.
  intros Hmol HD. unfold _calculate_fingerprints. simpl.
  unfold bind at 1. unfold bind at 1. simpl. unfold zoom_snd. simpl.
  by rewrite (calculate_fingerprint_unknown _ _ _ _ Hmol HD).
Qed.

End fingerprint_facts.

(** ** Node construction *)

Section node_facts.
Context `{RDKit} `{Label L}.
Import networkx MolecularNetwork.
Implicit Types (b : MolecularNetwork.t) (log : Log) (G : Graph).

Lemma comprehension_Forall2 {St A B} (f : A → M St B) l ys (s : St) :
  Forall2 (λ x y, f x s = (inr y, s)) l ys →
  comprehension f l s = (inr ys, s).
Proof.
  induction 1 as [|x y l ys Hxy _ IH]; [done|].
  simpl. unfold bind. by rewrite Hxy, IH.
Qed.

Lemma node_entries_length smiles_list (classes : list L) :
  length (node_entries smiles_list classes)
  = length smiles_list `min` length classes.
Proof. unfold node_entries. by rewrite length_imap, length_zip. Qed.

Lemma node_entries_lookup smiles_list (classes : list L) k smi c :
  smiles_list !! k = Some smi → classes !! k = Some c →
  node_entries smiles_list classes !! k
  = Some (k, {[ "smiles" := smi; "categorical_label" := str c ]}).
Proof.
  intros Hs Hc. unfold node_entries. rewrite list_lookup_imap.
  rewrite lookup_zip_with. by rewrite Hs, Hc.
Qed.

Lemma node_entries_keys smiles_list (classes : list L) :
  (node_entries smiles_list classes).*1
  = seq 0 (length smiles_list `min` length classes).
Proof.
  apply list_eq. intros k. rewrite list_lookup_fmap.
  unfold node_entries. rewrite list_lookup_imap, lookup_zip_with.
  destruct (smiles_list !! k) as [smi|] eqn:Hs; simpl.
  - destruct (classes !! k) as [c|] eqn:Hc; simpl.
    + apply lookup_lt_Some in Hs, Hc. rewrite lookup_seq_lt; [done|lia].
    + apply lookup_ge_None in Hc. symmetry. apply lookup_seq_ge. lia.
  - apply lookup_ge_None in Hs. symmetry. apply lookup_seq_ge. lia.
Qed.

Lemma node_entries_NoDup smiles_list (classes : list L) :
  NoDup (node_entries smiles_list classes).*1.
Proof. rewrite node_entries_keys. apply NoDup_seq. Qed.

Lemma node_entry_attrs (smi lbl : string) (old : gmap string string) :
  let d := ({[ "smiles" := smi; "categorical_label" := lbl ]}
              : gmap string string) ∪ old in
  d !! "smiles" = Some smi ∧ d !! "categorical_label" = Some lbl.
Proof.
  simpl. split; apply lookup_union_Some_l.
  - by rewrite lookup_insert_eq.
  - rewrite lookup_insert_ne by done. by rewrite lookup_singleton_eq.
Qed.

(** With the vocabulary and indices of the Label Normalizer, [_add_nodes]
    hands [add_nodes_from] one entry per position that has both an
    identifier and a label. *)
Lemma add_nodes_run b log smiles_list (classes : list L) :
  _add_nodes smiles_list (np.unique classes)
    (index_in (np.unique classes) <$> classes) (b, log)
  = (inr tt,
     (with_graph (add_nodes_from (node_entries smiles_list classes)) b, log)).
Proof.
  unfold _add_nodes, bind.
  rewrite (comprehension_Forall2 _ _ (node_entries smiles_list classes)).
  { done. }
  apply Forall2_same_length_lookup_2.
  { rewrite node_entries_length, length_zip, length_seq, length_fmap. done. }
  intros k [node value] e Hk He.
  apply lookup_zip_with_Some in Hk as (n & v & Heq & Hn & Hv).
  simplify_eq. apply lookup_seq in Hn as [-> Hlt]. simpl in *.
  rewrite list_lookup_fmap in Hv.
  destruct (classes !! k) as [c|] eqn:Hc; simplify_eq/=.
  destruct (lookup_lt_is_Some_2 smiles_list k Hlt) as [smi Hs].
  rewrite (node_entries_lookup _ _ _ _ _ Hs Hc) in He. simplify_eq.
  unfold bind, getitem. rewrite Hs. simpl.
  rewrite index_in_lookup; [done|].
  apply elem_of_unique. by eapply list_elem_of_lookup_2.
Qed.

End node_facts.

(** ** Edge construction *)

Section edge_facts.
Context `{RDKit}.
Import networkx MolecularNetwork.
Implicit Types (b : MolecularNetwork.t) (log : Log) (G : Graph).

Lemma calculate_similarity_run {St} sc f fp1 fp2 (s : St) :
  dict_get (SimilarityCalculator.metrics sc)
    (SimilarityCalculator.sim_metric sc) = Some (SimilarityCalculator.Fn2 f) →
  SimilarityCalculator.calculate_similarity sc fp1 fp2 s
  = (inr (Py.max (f fp1 fp2) (f fp2 fp1)), s).
Proof.
  intros Hf. unfold SimilarityCalculator.calculate_similarity, bind,
    dict_getitem. by rewrite Hf.
Qed.

(** A metric with four required parameters cannot be called with two. *)
Lemma calculate_similarity_arity {St} sc f fp1 fp2 (s : St) :
  dict_get (SimilarityCalculator.metrics sc)
    (SimilarityCalculator.sim_metric sc) = Some (SimilarityCalculator.Fn4 f) →
  SimilarityCalculator.calculate_similarity sc fp1 fp2 s = (inl TypeError, s).
Proof.
  intros Hf. unfold SimilarityCalculator.calculate_similarity, bind,
    dict_getitem. by rewrite Hf.
Qed.

Lemma calculate_similarity_unknown {St} sc fp1 fp2 (s : St) :
  dict_get (SimilarityCalculator.metrics sc)
    (SimilarityCalculator.sim_metric sc) = None →
  SimilarityCalculator.calculate_similarity sc fp1 fp2 s
  = (inl (KeyError (SimilarityCalculator.sim_metric sc)), s).
Proof.
  intros Hf. unfold SimilarityCalculator.calculate_similarity, bind,
    dict_getitem. by rewrite Hf.
Qed.

Lemma elem_of_pairs n i j : (i, j) ∈ pairs n ↔ i < j < n.
Proof.
  unfold pairs. rewrite list_elem_of_bind. split.
  - intros (i' & Hj & Hi). apply list_elem_of_fmap in Hj as (j' & ? & Hj).
    simplify_eq. apply elem_of_seq in Hi, Hj. lia.
  - intros Hij. exists i. split.
    + apply list_elem_of_fmap. exists j. split; [done|].
      apply elem_of_seq. lia.
    + apply elem_of_seq. lia.
Qed.

(** One round of the inner loop, on positions within the list. *)
Lemma add_edges_round b log f fps i j :
  metric_fn b = Some (SimilarityCalculator.Fn2 f) →
  i < length fps → j < length fps →
  (fp_i <- getitem fps i ;;
   fp_j <- getitem fps j ;;
   sim_val <- _calculate_similarity fp_i fp_j ;;
   this <- self ;;
   if Py.gt sim_val (sim_threshold this)
   then on_graph (add_edge i j)
   else ret tt) (b, log)
  = (inr tt, (with_graph (λ G, link (sim_threshold b) f fps G (i, j)) b, log)).
Proof.
  intros Hf Hi Hj.
  destruct (lookup_lt_is_Some_2 fps i Hi) as [fp_i Hfi].
  destruct (lookup_lt_is_Some_2 fps j Hj) as [fp_j Hfj].
  unfold bind at 1. unfold getitem at 1. rewrite Hfi. simpl.
  unfold bind at 1. unfold getitem at 1. rewrite Hfj. simpl.
  unfold bind at 1. unfold _calculate_similarity, bind at 1. simpl.
  rewrite (calculate_similarity_run _ f) by done.
  unfold bind, link, linked, score. simpl. rewrite Hfi, Hfj. simpl.
  destruct (Py.gt _ _); simpl; [done|]. by destruct b.
Qed.

Lemma add_edges_inner b log f fps i js :
  metric_fn b = Some (SimilarityCalculator.Fn2 f) →
  i < length fps → Forall (λ j, j < length fps) js →
  for_each js (λ j,
    fp_i <- getitem fps i ;;
    fp_j <- getitem fps j ;;
    sim_val <- _calculate_similarity fp_i fp_j ;;
    this <- self ;;
    if Py.gt sim_val (sim_threshold this)
    then on_graph (add_edge i j)
    else ret tt) (b, log)
  = (inr tt,
     (with_graph (λ G, foldl (link (sim_threshold b) f fps) G (pair i <$> js))
        b, log)).
Proof.
  intros Hf Hi Hjs. revert b Hf.
  induction Hjs as [|j js Hj _ IH]; intros b Hf.
  { simpl. by destruct b. }
  simpl. unfold bind at 1. rewrite (add_edges_round b log f) by done.
  rewrite IH by done. done.
Qed.

Lemma add_edges_outer b log f fps is_ :
  metric_fn b = Some (SimilarityCalculator.Fn2 f) →
  Forall (λ i, i < length fps) is_ →
  for_each is_ (λ i,
    for_each (seq (i + 1) (length fps - (i + 1))) (λ j,
      fp_i <- getitem fps i ;;
      fp_j <- getitem fps j ;;
      sim_val <- _calculate_similarity fp_i fp_j ;;
      this <- self ;;
      if Py.gt sim_val (sim_threshold this)
      then on_graph (add_edge i j)
      else ret tt)) (b, log)
  = (inr tt,
     (with_graph
        (λ G, foldl (link (sim_threshold b) f fps) G
                (is_ ≫= λ i, pair i <$> seq (i + 1) (length fps - (i + 1))))
        b, log)).
Proof.
  intros Hf His. revert b Hf.
  induction His as [|i is_ Hi _ IH]; intros b Hf.
  { simpl. by destruct b. }
  cbn [for_each]. unfold bind at 1.
  rewrite (add_edges_inner b log f); [|done..|].
  - rewrite IH by done. rewrite bind_cons.
    unfold with_graph. simpl. by rewrite foldl_app.
  - apply Forall_forall. intros j Hj. apply elem_of_seq in Hj. lia.
Qed.

(** With a two-argument metric [_add_edges] cannot raise, and what it does
    to the graph is [add_edges_of]. *)
Lemma add_edges_run b log f fps :
  metric_fn b = Some (SimilarityCalculator.Fn2 f) →
  _add_edges fps (b, log)
  = (inr tt, (with_graph (add_edges_of (sim_threshold b) f fps) b, log)).
Proof.
  intros Hf. unfold _add_edges. rewrite (add_edges_outer b log f); [done..|].
  apply Forall_forall. intros i Hi. apply elem_of_seq in Hi. lia.
Qed.

End edge_facts.

(** ** The graph a build leaves behind *)

Section build_facts.
Context `{RDKit}.
Import networkx MolecularNetwork.
Implicit Types (b : MolecularNetwork.t) (log : Log) (G : Graph) (thr : Qc).
Implicit Types (f : Fingerprint → Fingerprint → Qc).
Implicit Types (fps : list Fingerprint).

Lemma linked_lt thr f fps i j :
  linked thr f fps i j = true → i < length fps ∧ j < length fps.
Proof.
  unfold linked, score.
  destruct (fps !! i) eqn:Hi; [|done]. destruct (fps !! j) eqn:Hj; [|done].
  intros _. split; by eapply lookup_lt_Some.
Qed.

Lemma has_edge_foldl_link thr f fps ps G u v :
  has_edge (foldl (link thr f fps) G ps) u v = true
  ↔ has_edge G u v = true ∨
    ∃ i j, (i, j) ∈ ps ∧ linked thr f fps i j = true ∧
           (u = i ∧ v = j ∨ u = j ∧ v = i).
Proof.
  revert G. induction ps as [|[i j] ps IH]; intros G; simpl.
  { split; [auto|]. intros [?|(i & j & Hin & _)]; [done|].
    by apply elem_of_nil in Hin. }
  rewrite IH. unfold link. simpl.
  destruct (linked thr f fps i j) eqn:Hl.
  - rewrite has_edge_add_edge. split.
    + intros [[?|Hij]|(i' & j' & Hin & ?)]; [by left| |].
      * right. exists i, j. split; [left|]. done.
      * right. exists i', j'. split; [by right|done].
    + intros [?|(i' & j' & Hin & Hl' & Hab)]; [by left; left|].
      apply elem_of_cons in Hin as [?|Hin]; simplify_eq.
      * left. by right.
      * right. by exists i', j'.
  - split.
    + intros [?|(i' & j' & Hin & ?)]; [by left|].
      right. exists i', j'. split; [by right|done].
    + intros [?|(i' & j' & Hin & Hl' & Hab)]; [by left|].
      apply elem_of_cons in Hin as [?|Hin]; simplify_eq; [congruence|].
      right. by exists i', j'.
Qed.

(** After the two loops, two nodes are adjacent when they were before or
    when the test of [_add_edges] passed on them, smaller position first. *)
Lemma has_edge_add_edges_of thr f fps G u v :
  has_edge (add_edges_of thr f fps G) u v = true
  ↔ has_edge G u v = true ∨
    u < v ∧ linked thr f fps u v = true ∨
    v < u ∧ linked thr f fps v u = true.
Proof.
  unfold add_edges_of. rewrite has_edge_foldl_link. split.
  - intros [?|(i & j & Hin & Hl & Hab)]; [by left|].
    apply elem_of_pairs in Hin. right.
    destruct Hab as [[-> ->]|[-> ->]]; [left|right]; (split; [lia|done]).
  - intros [?|[[Hlt Hl]|[Hlt Hl]]]; [by left|right..].
    + exists u, v. pose proof (linked_lt _ _ _ _ _ Hl).
      rewrite elem_of_pairs. split_and!; [lia..|done|by left].
    + exists v, u. pose proof (linked_lt _ _ _ _ _ Hl).
      rewrite elem_of_pairs. split_and!; [lia..|done|by right].
Qed.

Lemma node_attr_add_node G e n :
  node_attr (add_node G e) n
  = if decide (e.1 = n) then Some (e.2 ∪ default ∅ (node_attr G n))
    else node_attr G n.
Proof.
  unfold node_attr. rewrite lookup_add_node. case_decide; [|done].
  simpl. by destruct (lookup_node n G).
Qed.

Lemma node_attr_add_nodes_from_other es G n :
  n ∉ es.*1 → node_attr (add_nodes_from es G) n = node_attr G n.
Proof.
  unfold add_nodes_from. revert G.
  induction es as [|e es IH]; intros G Hn; simpl; [done|].
  rewrite fmap_cons, not_elem_of_cons in Hn. destruct Hn as [Hne Hn].
  rewrite IH by done. rewrite node_attr_add_node. by rewrite decide_False.
Qed.

Lemma node_attr_add_nodes_from es G i n d :
  NoDup es.*1 → es !! i = Some (n, d) →
  node_attr (add_nodes_from es G) n = Some (d ∪ default ∅ (node_attr G n)).
Proof.
  unfold add_nodes_from. revert G i.
  induction es as [|e es IH]; intros G i Hnd Hi; [done|].
  rewrite fmap_cons in Hnd. apply NoDup_cons in Hnd as [He Hnd].
  destruct i as [|i]; simplify_eq/=.
  - fold (add_nodes_from es (add_node G (n, d))).
    rewrite node_attr_add_nodes_from_other by done.
    rewrite node_attr_add_node. simpl. by rewrite decide_True.
  - rewrite (IH _ i) by done. rewrite node_attr_add_node.
    rewrite decide_False; [done|]. intros <-. apply He.
    apply list_elem_of_fmap. exists (e.1, d). split; [done|].
    by eapply list_elem_of_lookup_2.
Qed.

Lemma filter_ext_elem_of {A} (P Q : A → Prop)
    `{!∀ x, Decision (P x), !∀ x, Decision (Q x)} (l : list A) :
  (∀ x, x ∈ l → P x ↔ Q x) → filter P l = filter Q l.
Proof.
  induction l as [|x l IH]; intros HPQ; [done|].
  rewrite !filter_cons. rewrite IH by (intros y Hy; apply HPQ; by right).
  destruct (decide (P x)) as [HP|HP], (decide (Q x)) as [HQ|HQ]; try done;
    exfalso; apply (HPQ x) in HP || apply (HPQ x) in HQ; done || by left.
Qed.

Lemma nodes_add_nodes_from es G :
  NoDup es.*1 →
  nodes (add_nodes_from es G)
  = nodes G ++ filter (λ n, n ∉ nodes G) es.*1.
Proof.
  unfold add_nodes_from. revert G.
  induction es as [|e es IH]; intros G Hnd; simpl.
  { by rewrite app_nil_r. }
  rewrite fmap_cons in Hnd. apply NoDup_cons in Hnd as [He Hnd].
  rewrite IH by done. rewrite nodes_add_node, filter_cons.
  destruct (decide (e.1 ∈ nodes G)) as [Hin|Hin].
  - rewrite decide_False by tauto. done.
  - rewrite decide_True by done. rewrite <-app_assoc. simpl. do 2 f_equal.
    apply filter_ext_elem_of. intros n Hn.
    rewrite elem_of_app, list_elem_of_singleton. split; [tauto|].
    intros Hn' [?| ->]; done.
Qed.

Lemma node_attr_add_edge u v G n :
  node_attr (add_edge u v G) n
  = if decide (n = u ∨ n = v) then Some (default ∅ (node_attr G n))
    else node_attr G n.
Proof.
  unfold node_attr, add_edge.
  rewrite !lookup_alter_node, !lookup_ensure_node.
  destruct (decide (u = n)), (decide (v = n)), (decide (n = u ∨ n = v));
    try (exfalso; intuition congruence);
    destruct (lookup_node n G); done.
Qed.

Lemma node_attr_is_Some G n : is_Some (node_attr G n) ↔ n ∈ nodes G.
Proof. unfold node_attr. by rewrite fmap_is_Some, elem_of_nodes. Qed.

Lemma node_attr_foldl_link thr f fps ps G n :
  n ∈ nodes G → node_attr (foldl (link thr f fps) G ps) n = node_attr G n.
Proof.
  revert G. induction ps as [|ij ps IH]; intros G Hn; simpl; [done|].
  assert (node_attr (link thr f fps G ij) n = node_attr G n) as Heq.
  { unfold link. destruct (linked _ _ _ _ _); [|done].
    rewrite node_attr_add_edge. case_decide; [|done].
    apply node_attr_is_Some in Hn as [d Hd]. by rewrite Hd. }
  rewrite IH; [done|]. apply node_attr_is_Some. rewrite Heq.
  by apply node_attr_is_Some.
Qed.

Lemma nodes_foldl_link thr f fps ps G :
  (∀ i j, (i, j) ∈ ps → i ∈ nodes G ∧ j ∈ nodes G) →
  nodes (foldl (link thr f fps) G ps) = nodes G.
Proof.
  revert G. induction ps as [|[i j] ps IH]; intros G Hps; simpl; [done|].
  destruct (Hps i j) as [Hi Hj]; [left|].
  assert (nodes (link thr f fps G (i, j)) = nodes G) as Heq.
  { unfold link. destruct (linked _ _ _ _ _); [|done].
    by apply nodes_add_edge_present. }
  rewrite IH; [done|]. intros i' j' Hin. rewrite Heq. apply Hps. by right.
Qed.

Lemma filter_all {A} (P : A → Prop) `{!∀ x, Decision (P x)} (l : list A) :
  (∀ x, x ∈ l → P x) → filter P l = l.
Proof.
  induction l as [|x l IH]; intros HP; [done|].
  rewrite filter_cons_True by (apply HP; left).
  f_equal. apply IH. intros y Hy. apply HP. by right.
Qed.

(** The test of [_add_edges] on two positions that hold molecules. *)
Lemma has_edge_built thr f D (mols : list Mol) es G i j mol_i mol_j :
  i < j → mols !! i = Some mol_i → mols !! j = Some mol_j →
  has_edge (add_edges_of thr f (D <$> mols) (add_nodes_from es G)) i j = true
  ↔ has_edge G i j = true ∨
    (thr < Py.max (f (D mol_i) (D mol_j)) (f (D mol_j) (D mol_i)))%Qc.
Proof.
  intros Hij Hi Hj.
  rewrite has_edge_add_edges_of, has_edge_add_nodes_from.
  unfold linked, score. rewrite !list_lookup_fmap, Hi, Hj. simpl.
  unfold Py.gt. rewrite !bool_decide_eq_true.
  split; [|intros [?|?]; [by left|right; left; done]].
  intros [?|[[_ ?]|[? _]]]; [by left|by right|lia].
Qed.

(** A build with identifiers that all parse, a descriptor name and a
    two-argument metric name that are keys of the tables: the call returns,
    the graph is the old one with the node entries added and then the edges,
    and every identifier went to the parser once. *)
Lemma create_graph_run `{Label L} b log smiles_list (classes : list L)
    mols D f :
  Forall2 (λ smi mol, MolFromSmiles smi = Some mol) smiles_list mols →
  descriptor_fn b = Some D →
  metric_fn b = Some (SimilarityCalculator.Fn2 f) →
  create_graph smiles_list classes (b, log)
  = (inr (add_edges_of (sim_threshold b) f (D <$> mols)
            (add_nodes_from (node_entries smiles_list classes) (graph b))),
     (with_graph
        (λ G, add_edges_of (sim_threshold b) f (D <$> mols)
                (add_nodes_from (node_entries smiles_list classes) G)) b,
      log ++ smiles_list)).
Proof.
  intros Hparse HD Hf. unfold create_graph, _create_graph.
  unfold bind at 1. unfold bind at 1.
  rewrite (calculate_fingerprints_ok _ _ _ _ _ Hparse HD).
  unfold bind at 1. rewrite convert_classes_run.
  unfold bind at 1. rewrite add_nodes_run.
  rewrite (add_edges_run _ _ f) by done.
  done.
Qed.

End build_facts.

(** ** Builds that raise *)

Section failure_facts.
Context `{RDKit}.
Import networkx MolecularNetwork.
Implicit Types (b : MolecularNetwork.t) (log : Log) (G : Graph).

(** Either every identifier parses, or there is a first one that does not. *)
Lemma parse_split (smiles_list : list string) :
  (∃ mols,
     Forall2 (λ smi mol, MolFromSmiles smi = Some mol) smiles_list mols)
  ∨ (∃ pre bad post mols,
       smiles_list = pre ++ bad :: post ∧
       Forall2 (λ smi mol, MolFromSmiles smi = Some mol) pre mols ∧
       MolFromSmiles bad = None).
Proof.
  induction smiles_list as [|smi l IH].
  { left. exists []. constructor. }
  destruct (MolFromSmiles smi) as [mol|] eqn:Hsmi.
  - destruct IH as [(mols & Hl)|(pre & bad & post & mols & -> & Hpre & Hbad)].
    + left. exists (mol :: mols). by constructor.
    + right. exists (smi :: pre), bad, post, (mol :: mols).
      split_and!; [done| |done]. by constructor.
  - right. exists [], smi, l, []. split_and!; [done| |done]. constructor.
Qed.

Lemma parse_prefix (pre : list string) :
  (∀ smi, smi ∈ pre → is_Some (MolFromSmiles smi)) →
  ∃ mols, Forall2 (λ smi mol, MolFromSmiles smi = Some mol) pre mols.
Proof.
  induction pre as [|smi pre IH]; intros Hpre.
  { exists []. constructor. }
  destruct (Hpre smi) as [mol Hmol]; [left|].
  destruct IH as [mols Hmols]; [intros x Hx; apply Hpre; by right|].
  exists (mol :: mols). by constructor.
Qed.

(** With fewer than two fingerprints the inner loop never runs. *)
Lemma add_edges_short b log (fps : list Fingerprint) :
  length fps < 2 → _add_edges fps (b, log) = (inr tt, (b, log)).
Proof.
  intros Hlen. destruct fps as [|x [|y fps]]; simpl in Hlen; [done..|lia].
Qed.

(** With two fingerprints or more, the first round of the inner loop calls
    the metric; a four-parameter metric raises there, an unknown metric name
    raises at the lookup, and the graph is as [_add_nodes] left it. *)
Lemma add_edges_arity b log g (fps : list Fingerprint) :
  metric_fn b = Some (SimilarityCalculator.Fn4 g) →
  2 ≤ length fps →
  _add_edges fps (b, log) = (inl TypeError, (b, log)).
Proof.
  intros Hg Hlen. destruct fps as [|x [|y fps]]; simpl in Hlen; [lia..|].
  unfold _add_edges. cbn [length seq for_each Nat.add Nat.sub].
  unfold bind at 1. unfold bind at 1. unfold bind at 1. simpl.
  unfold bind at 1. simpl.
  unfold bind at 1. unfold _calculate_similarity, bind at 1. simpl.
  by rewrite (calculate_similarity_arity _ g).
Qed.

Lemma add_edges_unknown b log (fps : list Fingerprint) :
  metric_fn b = None →
  2 ≤ length fps →
  _add_edges fps (b, log)
  = (inl (KeyError
            (SimilarityCalculator.sim_metric (similarity_calculator b))),
     (b, log)).
Proof.
  intros Hg Hlen. destruct fps as [|x [|y fps]]; simpl in Hlen; [lia..|].
  unfold _add_edges. cbn [length seq for_each Nat.add Nat.sub].
  unfold bind at 1. unfold bind at 1. unfold bind at 1. simpl.
  unfold bind at 1. simpl.
  unfold bind at 1. unfold _calculate_similarity, bind at 1. simpl.
  by rewrite calculate_similarity_unknown.
Qed.

(** The run of [create_graph] up to the edge loops, when every identifier
    parses and the descriptor name is a key. *)
Lemma create_graph_upto_edges `{Label L} b log smiles_list (classes : list L)
    mols D :
  Forall2 (λ smi mol, MolFromSmiles smi = Some mol) smiles_list mols →
  descriptor_fn b = Some D →
  create_graph smiles_list classes (b, log)
  = (_add_edges (D <$> mols) ;; this <- self ;; ret (graph this))%py
      (with_graph (add_nodes_from (node_entries smiles_list classes)) b,
       log ++ smiles_list).
Proof.
  intros Hparse HD. unfold create_graph, _create_graph.
  unfold bind at 1. unfold bind at 1.
  rewrite (calculate_fingerprints_ok _ _ _ _ _ Hparse HD).
  unfold bind at 1. rewrite convert_classes_run.
  unfold bind at 1. rewrite add_nodes_run.
  unfold bind at 2. done.
Qed.

Lemma create_graph_invalid `{Label L} b log pre bad post (classes : list L)
    mols :
  Forall2 (λ smi mol, MolFromSmiles smi = Some mol) pre mols →
  (pre ≠ [] → is_Some (descriptor_fn b)) →
  MolFromSmiles bad = None →
  create_graph (pre ++ bad :: post) classes (b, log)
  = (inl InvalidSMILESError, (b, log ++ pre ++ [bad])).
Proof.
  intros Hpre HD Hbad. unfold create_graph, _create_graph.
  unfold bind at 1. unfold bind at 1.
  by rewrite (calculate_fingerprints_invalid _ _ _ _ _ _ Hpre HD Hbad).
Qed.

Lemma create_graph_unknown_descriptor `{Label L} b log smi mol rest
    (classes : list L) :
  MolFromSmiles smi = Some mol →
  descriptor_fn b = None →
  create_graph (smi :: rest) classes (b, log)
  = (inl (KeyError
            (FingerprintCalculator.descriptor (fingerprint_calculator b))),
     (b, log ++ [smi])).
Proof.
  intros Hsmi HD. unfold create_graph, _create_graph.
  unfold bind at 1. unfold bind at 1.
  by rewrite (calculate_fingerprints_unknown _ _ _ _ _ Hsmi HD).
Qed.

End failure_facts.

(** ** Construction and the two tables *)

Section init_facts.
Context `{RDKit}.
Import networkx MolecularNetwork.

Lemma dict_get_is_Some {V} (d : list (string * V)) key :
  is_Some (dict_get d key) ↔ key ∈ d.*1.
Proof.
  induction d as [|[k v] d IH]; simpl.
  - rewrite elem_of_nil. split; [by intros [? ?]|done].
  - rewrite elem_of_cons. destruct (String.eqb_spec k key) as [->|Hne].
    + split; [by left|eauto].
    + rewrite IH. split; [by right|]. by intros [?|?].
Qed.

(** The constructor stores the names and the threshold as they come and
    starts from the empty graph; it has no way to raise. *)
Lemma init_spec descriptor sim_metric thr log :
  ∃ b,
    MolecularNetwork.__init__ descriptor sim_metric thr log = (inr b, log) ∧
    sim_threshold b = thr ∧ graph b = networkx.new ∧
    FingerprintCalculator.descriptor (fingerprint_calculator b) = descriptor ∧
    SimilarityCalculator.sim_metric (similarity_calculator b) = sim_metric ∧
    (is_Some (descriptor_fn b) ↔ descriptor ∈ supported_descriptors) ∧
    (is_Some (metric_fn b) ↔ sim_metric ∈ supported_metrics) ∧
    (sim_metric = "tversky" → ∃ g,
       metric_fn b = Some (SimilarityCalculator.Fn4 g)) ∧
    (sim_metric ∈ supported_metrics → sim_metric ≠ "tversky" → ∃ f,
       metric_fn b = Some (SimilarityCalculator.Fn2 f)).
Proof.
  eexists. split; [reflexivity|]. split_and!; try reflexivity.
  - apply dict_get_is_Some.
  - apply dict_get_is_Some.
  - intros ->. eexists. reflexivity.
  - unfold supported_metrics. intros Hin Hne.
    repeat (apply elem_of_cons in Hin as [->|Hin];
            [eexists; reflexivity|]).
    apply elem_of_cons in Hin as [->|Hin]; [done|].
    by apply elem_of_nil in Hin.
Qed.

End init_facts.

(** ** Building on a Network that is not empty *)

Section merge_facts.
Import networkx.
Implicit Types (G : Graph) (n m u v : nat) (x y : NodeData).

Lemma merge_lookup_empty_l (o : option NodeData) :
  merge_lookup (Some empty_node) o = Some (default empty_node o).
Proof.
  destruct o as [[a s]|]; simpl; [|done].
  unfold merge_node. simpl. by rewrite !(left_id_L ∅ (∪)).
Qed.

Lemma merged_ensure_node G2 Gf G1 n :
  (∀ m, lookup_node m G2
        = merge_lookup (lookup_node m Gf) (lookup_node m G1)) →
  ∀ m, lookup_node m (ensure_node n G2)
       = merge_lookup (lookup_node m (ensure_node n Gf)) (lookup_node m G1).
Proof.
  intros Hm m. rewrite !lookup_ensure_node, Hm. case_decide; [|done].
  destruct (lookup_node m Gf) as [xf|].
  - by destruct (lookup_node m G1).
  - change (default empty_node None) with empty_node.
    rewrite merge_lookup_empty_l. by destruct (lookup_node m G1).
Qed.

Lemma merged_alter_node (f : NodeData → NodeData) G2 Gf G1 n :
  (∀ x y, f (merge_node x y) = merge_node (f x) y) →
  is_Some (lookup_node n Gf) →
  (∀ m, lookup_node m G2
        = merge_lookup (lookup_node m Gf) (lookup_node m G1)) →
  ∀ m, lookup_node m (alter_node f n G2)
       = merge_lookup (lookup_node m (alter_node f n Gf)) (lookup_node m G1).
Proof.
  intros Hf [xf Hxf] Hm m. rewrite !lookup_alter_node, Hm.
  case_decide; [|done]. subst. rewrite Hxf. simpl.
  destruct (lookup_node m G1); simpl; [|done]. by rewrite Hf.
Qed.

Lemma update_attr_merge d x y :
  update_attr d (merge_node x y) = merge_node (update_attr d x) y.
Proof. unfold update_attr, merge_node. simpl. by rewrite (assoc_L (∪)). Qed.

Lemma add_nbr_merge v x y :
  add_nbr v (merge_node x y) = merge_node (add_nbr v x) y.
Proof. unfold add_nbr, merge_node. simpl. by rewrite (assoc_L (∪)). Qed.

Lemma ensure_node_is_Some n G : is_Some (lookup_node n (ensure_node n G)).
Proof. rewrite lookup_ensure_node. by rewrite decide_True. Qed.

Lemma ensure_node_keeps n m G :
  is_Some (lookup_node m G) → is_Some (lookup_node m (ensure_node n G)).
Proof.
  intros Hm. rewrite lookup_ensure_node. case_decide; [eauto|done].
Qed.

Lemma alter_node_keeps f n m G :
  is_Some (lookup_node m G) → is_Some (lookup_node m (alter_node f n G)).
Proof.
  intros Hm. rewrite lookup_alter_node. case_decide; [|done].
  by apply fmap_is_Some.
Qed.

Lemma merged_add_node G2 Gf G1 e :
  (∀ m, lookup_node m G2
        = merge_lookup (lookup_node m Gf) (lookup_node m G1)) →
  ∀ m, lookup_node m (add_node G2 e)
       = merge_lookup (lookup_node m (add_node Gf e)) (lookup_node m G1).
Proof.
  intros Hm. unfold add_node. apply merged_alter_node.
  - apply update_attr_merge.
  - apply ensure_node_is_Some.
  - by apply merged_ensure_node.
Qed.

Lemma merged_add_edge G2 Gf G1 u v :
  (∀ m, lookup_node m G2
        = merge_lookup (lookup_node m Gf) (lookup_node m G1)) →
  ∀ m, lookup_node m (add_edge u v G2)
       = merge_lookup (lookup_node m (add_edge u v Gf)) (lookup_node m G1).
Proof.
  intros Hm. unfold add_edge. apply merged_alter_node.
  - apply add_nbr_merge.
  - apply alter_node_keeps, ensure_node_is_Some.
  - apply merged_alter_node.
    + apply add_nbr_merge.
    + apply ensure_node_keeps, ensure_node_is_Some.
    + by do 2 apply merged_ensure_node.
Qed.

Lemma merged_add_nodes_from es G2 Gf G1 :
  (∀ m, lookup_node m G2
        = merge_lookup (lookup_node m Gf) (lookup_node m G1)) →
  ∀ m, lookup_node m (add_nodes_from es G2)
       = merge_lookup (lookup_node m (add_nodes_from es Gf))
           (lookup_node m G1).
Proof.
  unfold add_nodes_from. revert G2 Gf.
  induction es as [|e es IH]; intros G2 Gf Hm; simpl; [done|].
  by apply IH, merged_add_node.
Qed.

End merge_facts.

Section merge_build_facts.
Context `{RDKit}.
Import networkx.
Implicit Types (G : Graph) (n m u v : nat).

Lemma merged_add_edges_of thr f (fps : list Fingerprint) G2 Gf G1 :
  (∀ m, lookup_node m G2
        = merge_lookup (lookup_node m Gf) (lookup_node m G1)) →
  ∀ m, lookup_node m (add_edges_of thr f fps G2)
       = merge_lookup (lookup_node m (add_edges_of thr f fps Gf))
           (lookup_node m G1).
Proof.
  unfold add_edges_of. generalize (pairs (length fps)) as ps. intros ps.
  revert G2 Gf. induction ps as [|ij ps IH]; intros G2 Gf Hm; simpl; [done|].
  apply IH. unfold link. destruct (linked _ _ _ _ _); [|done].
  by apply merged_add_edge.
Qed.

(** The graph a build reaches from [G] is the graph the same build reaches
    from the empty graph, merged into [G]. *)
Lemma merged_build thr f (fps : list Fingerprint) es G m :
  lookup_node m (add_edges_of thr f fps (add_nodes_from es G))
  = merge_lookup
      (lookup_node m (add_edges_of thr f fps (add_nodes_from es networkx.new)))
      (lookup_node m G).
Proof.
  apply merged_add_edges_of, merged_add_nodes_from. intros k. simpl.
  by destruct (lookup_node k G).
Qed.

End merge_build_facts.

(** ** What every call keeps *)

Section invariant_facts.
Context `{RDKit}.
Import networkx MolecularNetwork.
Implicit Types (b : MolecularNetwork.t) (log : Log) (G : Graph).

Lemma calculate_similarity_unchanged {St} sc fp1 fp2 (s : St) :
  (SimilarityCalculator.calculate_similarity sc fp1 fp2 s).2 = s.
Proof.
  unfold SimilarityCalculator.calculate_similarity.
  assert (∀ fn a c (s : St), (SimilarityCalculator.call2 fn a c s).2 = s)
    as Hcall by (by intros []).
  apply bind_unchanged; [apply dict_getitem_unchanged|]. intros fn s1.
  apply bind_unchanged; [apply Hcall|]. intros s12 s2.
  apply bind_unchanged; [apply dict_getitem_unchanged|]. intros fn' s3.
  apply bind_unchanged; [apply Hcall|]. done.
Qed.

(** A property of the builder that adding node entries and adding an edge
    between two different positions keep is kept by [create_graph], whether
    the call returns or raises. *)
Lemma create_graph_keeps `{Label L} (K : MolecularNetwork.t → Prop)
    smiles_list (classes : list L) :
  (∀ b es, K b → K (with_graph (add_nodes_from es) b)) →
  (∀ b i j, i < j → K b → K (with_graph (add_edge i j) b)) →
  triple (λ st, K st.1) (create_graph smiles_list classes) (λ _ st, K st.1).
Proof.
  intros Hnodes Hedge.
  assert (triple (λ st : MolecularNetwork.t * Log, K st.1) self
            (λ _ st, K st.1)) as Hself.
  { by apply keeps_unchanged. }
  unfold create_graph.
  apply keeps_bind;
    [|intros _; apply keeps_bind; [done|intros this; by apply triple_ret]].
  unfold _create_graph. apply keeps_bind.
  { unfold _calculate_fingerprints. apply keeps_comprehension.
    intros smi _. apply keeps_bind; [done|]. intros this [b log] Hb.
    unfold zoom_snd. simpl.
    by destruct (FingerprintCalculator.calculate_fingerprint _ _ _). }
  intros fps. apply keeps_bind.
  { apply keeps_unchanged. intros s. by rewrite convert_classes_run. }
  intros [unique_classes categorical_labels]. apply keeps_bind.
  { unfold _add_nodes. apply keeps_bind.
    - apply keeps_unchanged. intros s. apply comprehension_unchanged.
      intros [node value] s'.
      apply bind_unchanged; [apply getitem_unchanged|]. intros smi s''.
      apply bind_unchanged; [apply getitem_unchanged|]. done.
    - intros es [b log] Hb. by apply Hnodes. }
  intros _. unfold _add_edges. apply keeps_for_each. intros i _.
  apply keeps_for_each. intros j Hj. apply elem_of_seq in Hj.
  apply keeps_bind; [apply keeps_unchanged, getitem_unchanged|]. intros fp_i.
  apply keeps_bind; [apply keeps_unchanged, getitem_unchanged|]. intros fp_j.
  apply keeps_bind.
  { apply keeps_unchanged. intros s. unfold _calculate_similarity.
    apply bind_unchanged; [done|]. intros this s'.
    apply calculate_similarity_unchanged. }
  intros sim_val. apply keeps_bind; [done|]. intros this.
  destruct (Py.gt _ _); [|by apply triple_ret].
  intros [b log] Hb. apply Hedge; [lia|done].
Qed.

Lemma simple_intro G :
  (∀ u v, has_edge G u v = has_edge G v u) →
  (∀ u, has_edge G u u = false) →
  simple G.
Proof.
  intros Hsym Hirr. split_and!; [done..|].
  intros u v Huv Hvu. apply elem_of_edges in Huv as [? Huv].
  apply elem_of_edges in Hvu as [? _].
  assert (u = v) as -> by lia. by rewrite Hirr in Huv.
Qed.

Lemma simple_add_nodes_from es G : simple G → simple (add_nodes_from es G).
Proof.
  intros (Hsym & Hirr & _). apply simple_intro.
  - intros u v. by rewrite !has_edge_add_nodes_from.
  - intros u. by rewrite has_edge_add_nodes_from.
Qed.

Lemma simple_add_edge i j G : i ≠ j → simple G → simple (add_edge i j G).
Proof.
  intros Hij (Hsym & Hirr & _). apply simple_intro.
  - intros u v. apply eq_true_iff_eq. rewrite !has_edge_add_edge, Hsym.
    tauto.
  - intros u. apply not_true_is_false. rewrite has_edge_add_edge, Hirr.
    intros [?|[[-> ->]|[-> ->]]]; done.
Qed.

Lemma simple_new : simple networkx.new.
Proof. apply simple_intro; done. Qed.

(** Raising the threshold can only take pairs out of the test of
    [_add_edges]. *)
Lemma linked_antitone (thr1 thr2 : Qc) f (fps : list Fingerprint) i j :
  (thr1 ≤ thr2)%Qc →
  linked thr2 f fps i j = true → linked thr1 f fps i j = true.
Proof.
  intros Hle. unfold linked. destruct (score f fps i j) as [s|]; [|done].
  simpl. unfold Py.gt. rewrite !bool_decide_eq_true.
  intros Hlt. by eapply Qcle_lt_trans.
Qed.

End invariant_facts.

(** ** What a call does to the Network, in every case *)

Section growth_facts.
Context `{RDKit}.
Import networkx MolecularNetwork.
Implicit Types (b : MolecularNetwork.t) (log : Log) (G : Graph).

Lemma with_graph_id b : with_graph (λ G, G) b = b.
Proof. by destruct b. Qed.

Lemma create_graph_growth `{Label L} b log smiles_list (classes : list L) :
  (create_graph smiles_list classes (b, log)).2.1
  = with_graph (growth b smiles_list classes) b.
Proof.
  destruct (parse_split smiles_list)
    as [(mols & Hparse)|(pre & bad & post & mols & -> & Hpre & Hbad)].
  - pose proof (mapM_Some_2 _ _ _ Hparse) as Hmap.
    destruct (descriptor_fn b) as [D|] eqn:HD.
    + rewrite (create_graph_upto_edges _ _ _ _ mols D) by done.
      unfold growth. rewrite Hmap, HD. unfold bind at 1.
      destruct (metric_fn b) as [[f|g]|] eqn:Hm.
      * by rewrite (add_edges_run _ _ f).
      * destruct (decide (2 ≤ length (D <$> mols))).
        -- by rewrite (add_edges_arity _ _ g).
        -- by rewrite add_edges_short by lia.
      * destruct (decide (2 ≤ length (D <$> mols))).
        -- by rewrite add_edges_unknown.
        -- by rewrite add_edges_short by lia.
    + unfold growth. rewrite Hmap, HD.
      destruct Hparse as [|smi mol rest mols' Hsmi Hrest].
      * unfold create_graph, _create_graph. unfold bind at 1. unfold bind at 1.
        unfold bind at 1. cbn [_calculate_fingerprints comprehension ret].
        unfold bind at 1. rewrite convert_classes_run. by destruct b.
      * rewrite (create_graph_unknown_descriptor _ _ _ mol) by done.
        simpl. by rewrite with_graph_id.
  - assert (mapM MolFromSmiles (pre ++ bad :: post) = None) as Hmap.
    { apply mapM_None_2, Exists_app. right. by left. }
    unfold growth. rewrite Hmap, with_graph_id.
    destruct (descriptor_fn b) as [D|] eqn:HD.
    + rewrite (create_graph_invalid _ _ _ _ _ _ mols); eauto.
    + destruct Hpre as [|smi mol rest mols' Hsmi Hrest].
      * rewrite (create_graph_invalid _ _ [] _ _ _ []);
          [done|constructor|naive_solver|done].
      * simpl. by rewrite (create_graph_unknown_descriptor _ _ _ mol).
Qed.

(** Between two builders with the same calculators and thresholds
    [t1 <= t2], a call on the same inputs keeps the edges of the second
    among the edges of the first. *)
Lemma growth_has_edge_mono `{Label L} b1 b2 smiles_list (classes : list L)
    G1 G2 :
  fingerprint_calculator b1 = fingerprint_calculator b2 →
  similarity_calculator b1 = similarity_calculator b2 →
  (sim_threshold b1 ≤ sim_threshold b2)%Qc →
  (∀ u v, has_edge G2 u v = true → has_edge G1 u v = true) →
  ∀ u v,
    has_edge (growth b2 smiles_list classes G2) u v = true →
    has_edge (growth b1 smiles_list classes G1) u v = true.
Proof.
  intros Hfc Hsc Hle Hsub u v. unfold growth, descriptor_fn, metric_fn.
  rewrite Hfc, Hsc.
  destruct (mapM MolFromSmiles smiles_list) as [mols|]; [|apply Hsub].
  destruct (dict_get _ _) as [D|]; [|apply Hsub]. simpl.
  destruct (dict_get _ _) as [[f|g]|];
    rewrite ?has_edge_add_edges_of, !has_edge_add_nodes_from; [|apply Hsub..].
  intros [?|[[? Hl]|[? Hl]]]; [left; by apply Hsub|right..].
  - left. split; [done|]. by eapply linked_antitone.
  - right. split; [done|]. by eapply linked_antitone.
Qed.

Lemma in_step_invariant b1 b2 :
  in_step b1 b2 →
  fingerprint_calculator b1 = fingerprint_calculator b2 ∧
  similarity_calculator b1 = similarity_calculator b2 ∧
  (sim_threshold b1 ≤ sim_threshold b2)%Qc ∧
  ∀ u v, has_edge (graph b2) u v = true → has_edge (graph b1) u v = true.
Proof.
  induction 1 as [d m thr1 thr2 log1 log2 b1 b2 log1' log2' Hle Hb1 Hb2
                 |L HL smiles_list classes b1 b2 log1 log2 r1 r2 b1' b2'
                    log1' log2' _ (Hfc & Hsc & Hle & Hsub) Hrun1 Hrun2].
  - injection Hb1 as <- _. injection Hb2 as <- _. by split_and!.
  - pose proof (create_graph_growth b1 log1 smiles_list classes) as Hg1.
    pose proof (create_graph_growth b2 log2 smiles_list classes) as Hg2.
    rewrite Hrun1 in Hg1. rewrite Hrun2 in Hg2. simpl in Hg1, Hg2. subst.
    split_and!; [done..|]. simpl. by apply growth_has_edge_mono.
Qed.

End growth_facts.

(** * The claims *)

Section claims.
Context `{RDKit}.
Import networkx MolecularNetwork.
Implicit Types (b : MolecularNetwork.t) (log : Log) (G : Graph).

(** C7, in the form that holds of the code. For every sequence of raw labels
    that the conversion to an array keeps apart (every label is stored as an
    element of its own, and [==] identifies that element with this label
    only, as for strings and for Python integers that all fit [int64]), the
    Label Normalizer returns: the vocabulary is the strictly increasing
    sequence of the distinct stored labels, the index sequence has the
    length of the input, and position [p] of it points at the stored form
    of the label of position [p].  Consequently the [categorical_label]
    that [_add_nodes] attaches to node [p] is the string form of the stored
    label of position [p]. *)
Theorem label_normalizer_round_trip `{ArrayLike R} (raw_labels : list R)
    (stored : R → Elem R) :
  asanyarray raw_labels = stored <$> raw_labels →
  (∀ x c, x ∈ raw_labels → c ∈ raw_labels →
          array_eq (stored x) c = true ↔ x = c) →
  ∃ vocabulary indices,
    (∀ St (s : St),
       _convert_classes raw_labels s = (inr (vocabulary, indices), s)) ∧
    StronglySorted (strict label_le) vocabulary ∧
    (∀ e, e ∈ vocabulary ↔ ∃ c, c ∈ raw_labels ∧ e = stored c) ∧
    (∀ x c, x ∈ raw_labels → c ∈ raw_labels →
            stored x = stored c → x = c) ∧
    length indices = length raw_labels ∧
    (∀ p c, raw_labels !! p = Some c →
       ∃ i, indices !! p = Some i ∧ vocabulary !! i = Some (stored c)) ∧
    (∀ smiles_list b log,
       ∃ b', _add_nodes smiles_list vocabulary indices (b, log)
             = (inr tt, (b', log)) ∧
         ∀ p smi c,
           smiles_list !! p = Some smi → raw_labels !! p = Some c →
           ∃ d, node_attr (graph b') p = Some d ∧
                d !! "categorical_label" = Some (str (stored c))).
Proof.
  intros Harray Heq.
  exists (np.unique (stored <$> raw_labels)),
    (index_in (np.unique (stored <$> raw_labels)) <$> (stored <$> raw_labels)).
  split_and!.
  - intros St s. by apply convert_classes_stored_run.
  - apply unique_sorted.
  - intros e. rewrite elem_of_unique, list_elem_of_fmap. naive_solver.
  - intros x c Hx Hc Hsame. apply (Heq x c Hx Hc). rewrite Hsame.
    by apply Heq.
  - by rewrite !length_fmap.
  - intros p c Hp.
    exists (index_in (np.unique (stored <$> raw_labels)) (stored c)). split.
    + by rewrite !list_lookup_fmap, Hp.
    + apply index_in_lookup, elem_of_unique, list_elem_of_fmap.
      exists c. split; [done|]. by eapply list_elem_of_lookup_2.
  - intros smiles_list b log. eexists. split; [apply add_nodes_run|].
    intros p smi c Hs Hc. simpl.
    assert ((stored <$> raw_labels) !! p = Some (stored c)) as Hc'
      by (by rewrite list_lookup_fmap, Hc).
    rewrite (node_attr_add_nodes_from _ _ p p _ (node_entries_NoDup _ _)
               (node_entries_lookup _ _ _ _ _ Hs Hc')).
    eexists. split; [done|]. apply node_entry_attrs.
Qed.

(** C1, in the form that holds of the code. For identifiers that all parse, on
    a builder whose descriptor and metric names select a descriptor function
    and a two-argument metric, [create_graph] returns, and for [i < j < N] the
    edge [{i, j}] is in the Network afterwards exactly when it was there
    before the call or [max(sim(d_i, d_j), sim(d_j, d_i))] strictly exceeds
    the threshold; on a Network without edges before the call (a new builder)
    exactly when the maximum strictly exceeds the threshold. *)
Theorem edge_iff_prior_or_above_threshold `{Label L} b log smiles_list
    (classes : list L) mols D f :
  Forall2 (λ smi mol, MolFromSmiles smi = Some mol) smiles_list mols →
  descriptor_fn b = Some D →
  metric_fn b = Some (SimilarityCalculator.Fn2 f) →
  ∃ G',
    create_graph smiles_list classes (b, log)
    = (inr G', (with_graph (λ _, G') b, log ++ smiles_list)) ∧
    (∀ i j mol_i mol_j,
       i < j → mols !! i = Some mol_i → mols !! j = Some mol_j →
       has_edge G' i j = true
       ↔ has_edge (graph b) i j = true ∨
         (sim_threshold b
          < Py.max (f (D mol_i) (D mol_j)) (f (D mol_j) (D mol_i)))%Qc) ∧
    ((∀ u v, has_edge (graph b) u v = false) →
     ∀ i j mol_i mol_j,
       i < j → mols !! i = Some mol_i → mols !! j = Some mol_j →
       has_edge G' i j = true
       ↔ (sim_threshold b
          < Py.max (f (D mol_i) (D mol_j)) (f (D mol_j) (D mol_i)))%Qc).
Proof.
  intros Hparse HD Hf. eexists. split; [by apply create_graph_run|].
  split.
  - intros i j mol_i mol_j. apply has_edge_built.
  - intros Hnone i j mol_i mol_j Hij Hi Hj.
    rewrite (has_edge_built _ _ _ _ _ _ i j mol_i mol_j Hij Hi Hj), Hnone.
    naive_solver.
Qed.

(** C2, in the form that holds of the code. For equal-length inputs whose
    identifiers all parse, on a builder whose names select a descriptor
    function and a two-argument metric, [create_graph] returns; node [k < N]
    is in the Network and its attributes are the [k]-th identifier and the
    string form of [vocabulary[indices[k]]] (on top of what the node carried
    before); the nodes are those the Network had before, followed by the
    missing ids of [0..N-1] in input order; on a Network that was empty before
    the call (a new builder) the nodes are exactly [0..N-1], in input order. *)
Theorem nodes_carry_identifier_and_label `{Label L} b log smiles_list
    (classes : list L) mols D f :
  length smiles_list = length classes →
  Forall2 (λ smi mol, MolFromSmiles smi = Some mol) smiles_list mols →
  descriptor_fn b = Some D →
  metric_fn b = Some (SimilarityCalculator.Fn2 f) →
  ∃ G' vocabulary indices,
    create_graph smiles_list classes (b, log)
    = (inr G', (with_graph (λ _, G') b, log ++ smiles_list)) ∧
    (∀ St (s : St),
       _convert_classes classes s = (inr (vocabulary, indices), s)) ∧
    (∀ k smi, smiles_list !! k = Some smi →
       ∃ i c, indices !! k = Some i ∧ vocabulary !! i = Some c ∧
         node_attr G' k
         = Some ({[ "smiles" := smi; "categorical_label" := str c ]}
                 ∪ default ∅ (node_attr (graph b) k))) ∧
    nodes G'
    = nodes (graph b)
      ++ filter (λ n, n ∉ nodes (graph b)) (seq 0 (length smiles_list)) ∧
    (graph b = networkx.new →
     nodes G' = seq 0 (length smiles_list) ∧
     number_of_nodes G' = length smiles_list ∧
     ∀ k smi, smiles_list !! k = Some smi →
       ∃ i c, indices !! k = Some i ∧ vocabulary !! i = Some c ∧
         node_attr G' k
         = Some {[ "smiles" := smi; "categorical_label" := str c ]}).
Proof.
  intros Hlen Hparse HD Hf.
  set (es := node_entries smiles_list classes).
  set (G' := add_edges_of (sim_threshold b) f (D <$> mols)
               (add_nodes_from es (graph b))).
  assert (es.*1 = seq 0 (length smiles_list)) as Hkeys.
  { unfold es. rewrite node_entries_keys, <-Hlen. f_equal. lia. }
  assert (nodes (add_nodes_from es (graph b))
          = nodes (graph b)
            ++ filter (λ n, n ∉ nodes (graph b))
                 (seq 0 (length smiles_list)))
    as Hnodes0.
  { rewrite nodes_add_nodes_from by apply node_entries_NoDup.
    by rewrite Hkeys. }
  assert (∀ k, k < length smiles_list →
               k ∈ nodes (add_nodes_from es (graph b))) as Hin.
  { intros k Hk. rewrite Hnodes0, elem_of_app, list_elem_of_filter, elem_of_seq.
    destruct (decide (k ∈ nodes (graph b))); [by left|right].
    split; [done|lia]. }
  assert (nodes G' = nodes (add_nodes_from es (graph b))) as Hnodes.
  { apply nodes_foldl_link. intros i j Hij. apply elem_of_pairs in Hij.
    rewrite length_fmap, <-(Forall2_length _ _ _ Hparse) in Hij.
    split; apply Hin; lia. }
  assert (∀ k smi, smiles_list !! k = Some smi →
    ∃ i c, (index_in (np.unique classes) <$> classes) !! k = Some i ∧
      np.unique classes !! i = Some c ∧
      node_attr G' k
      = Some ({[ "smiles" := smi; "categorical_label" := str c ]}
              ∪ default ∅ (node_attr (graph b) k))) as Hattr.
  { intros k smi Hs.
    destruct (lookup_lt_is_Some_2 classes k) as [c Hc].
    { rewrite <-Hlen. by eapply lookup_lt_Some. }
    exists (index_in (np.unique classes) c), c. split_and!.
    - by rewrite list_lookup_fmap, Hc.
    - apply index_in_lookup, elem_of_unique. by eapply list_elem_of_lookup_2.
    - unfold G', add_edges_of. rewrite node_attr_foldl_link.
      + apply (node_attr_add_nodes_from _ _ k); [apply node_entries_NoDup|].
        by apply node_entries_lookup.
      + apply Hin. by eapply lookup_lt_Some. }
  exists G', (np.unique classes), (index_in (np.unique classes) <$> classes).
  split_and!.
  - by apply create_graph_run.
  - intros St s. apply convert_classes_run.
  - exact Hattr.
  - by rewrite Hnodes.
  - intros Hnew. rewrite Hnew in *. simpl in *. split_and!.
    + rewrite Hnodes, Hnodes0. apply filter_all.
      intros n _. apply not_elem_of_nil.
    + unfold number_of_nodes. rewrite <-(length_fmap fst G').
      fold (nodes G'). rewrite Hnodes, Hnodes0, filter_all.
      * apply length_seq.
      * intros n _. apply not_elem_of_nil.
    + intros k smi Hs. destruct (Hattr k smi Hs) as (i & c & Hi & Hc & Hd).
      exists i, c. split_and!; [done..|].
      rewrite Hd. unfold node_attr. simpl. by rewrite (right_id_L ∅ (∪)).
Qed.

(** C3, in the form that holds of the code. The lengths of the two inputs are
    never compared and no [ShapeMismatch] error exists: for inputs of
    different lengths whose identifiers all parse, on a builder whose names
    select a descriptor function and a two-argument metric, [create_graph]
    returns and has mutated the Network: every position that has both an
    identifier and a label is a node carrying them, and the edges follow the
    threshold rule over all [N] identifiers. *)
Theorem length_mismatch_builds `{Label L} b log smiles_list
    (classes : list L) mols D f :
  length smiles_list ≠ length classes →
  Forall2 (λ smi mol, MolFromSmiles smi = Some mol) smiles_list mols →
  descriptor_fn b = Some D →
  metric_fn b = Some (SimilarityCalculator.Fn2 f) →
  ∃ G',
    create_graph smiles_list classes (b, log)
    = (inr G', (with_graph (λ _, G') b, log ++ smiles_list)) ∧
    (∀ k smi c, smiles_list !! k = Some smi → classes !! k = Some c →
       ∃ d, node_attr G' k = Some d ∧ d !! "smiles" = Some smi ∧
            d !! "categorical_label" = Some (str c)) ∧
    (∀ i j mol_i mol_j,
       i < j → mols !! i = Some mol_i → mols !! j = Some mol_j →
       has_edge G' i j = true
       ↔ has_edge (graph b) i j = true ∨
         (sim_threshold b
          < Py.max (f (D mol_i) (D mol_j)) (f (D mol_j) (D mol_i)))%Qc).
Proof.
  intros _ Hparse HD Hf. eexists.
  split_and!; [by apply create_graph_run| |].
  - intros k smi c Hs Hc.
    assert (node_attr (add_nodes_from (node_entries smiles_list classes)
                         (graph b)) k
            = Some ({[ "smiles" := smi; "categorical_label" := str c ]}
                    ∪ default ∅ (node_attr (graph b) k))) as Hk.
    { apply (node_attr_add_nodes_from _ _ k); [apply node_entries_NoDup|].
      by apply node_entries_lookup. }
    eexists. split; [|apply node_entry_attrs].
    unfold add_edges_of. rewrite node_attr_foldl_link; [exact Hk|].
    apply node_attr_is_Some. by rewrite Hk.
  - intros i j mol_i mol_j. apply has_edge_built.
Qed.

(** C4, in the form that holds of the code. [create_graph] never clears the
    Network: for inputs whose identifiers all parse, on a builder whose names
    select a descriptor function and a two-argument metric and whatever its
    Network holds before the call (in particular what an earlier build left
    there), the Network after the call is the one a builder of the same
    configuration with an empty Network produces from these inputs, merged
    into the previous content: its nodes and its edges are those of either,
    and a node's attributes are the new ones on top of the old ones. *)
Theorem rebuild_merges_into_previous `{Label L} b log log0 smiles_list
    (classes : list L) mols D f :
  Forall2 (λ smi mol, MolFromSmiles smi = Some mol) smiles_list mols →
  descriptor_fn b = Some D →
  metric_fn b = Some (SimilarityCalculator.Fn2 f) →
  ∃ G2 Gf,
    create_graph smiles_list classes (b, log)
    = (inr G2, (with_graph (λ _, G2) b, log ++ smiles_list)) ∧
    create_graph smiles_list classes (with_graph (λ _, networkx.new) b, log0)
    = (inr Gf, (with_graph (λ _, Gf) b, log0 ++ smiles_list)) ∧
    (∀ n, n ∈ nodes G2 ↔ n ∈ nodes Gf ∨ n ∈ nodes (graph b)) ∧
    (∀ u v, has_edge G2 u v = has_edge Gf u v || has_edge (graph b) u v) ∧
    (∀ n, node_attr G2 n
          = union_with (λ d d', Some (d ∪ d'))
              (node_attr Gf n) (node_attr (graph b) n)).
Proof.
  intros Hparse HD Hf.
  set (es := node_entries smiles_list classes).
  set (fps := D <$> mols).
  set (Gf := add_edges_of (sim_threshold b) f fps
               (add_nodes_from es networkx.new)).
  pose proof (merged_build (sim_threshold b) f fps es (graph b)) as Hm.
  fold Gf in Hm.
  exists (add_edges_of (sim_threshold b) f fps (add_nodes_from es (graph b))),
    Gf.
  split_and!.
  - by apply create_graph_run.
  - by rewrite (create_graph_run _ _ _ _ mols D f).
  - intros n. rewrite !elem_of_nodes, Hm.
    destruct (lookup_node n Gf), (lookup_node n (graph b)); simpl;
      rewrite <-?not_eq_None_Some; naive_solver.
  - intros u v. unfold has_edge, adj. rewrite Hm.
    destruct (lookup_node u Gf), (lookup_node u (graph b)); simpl;
      apply eq_true_iff_eq;
      rewrite orb_true_iff, !bool_decide_eq_true; set_solver.
  - intros n. unfold node_attr. rewrite Hm.
    by destruct (lookup_node n Gf), (lookup_node n (graph b)).
Qed.

(** C5, in the form that holds of the code. The constructor checks neither
    name and always returns a builder. A descriptor name that is not a key of
    the descriptor table raises [KeyError] during the build, at the first
    identifier when it parses, with the Network untouched; a metric name that
    is not a key of the metric table raises [KeyError] during the build, at
    the first pair of fingerprints, after the nodes have been added. For a
    builder whose two names are keys of the tables no [KeyError] is raised by
    a build. *)
Theorem names_are_looked_up_during_build `{Label L} descriptor sim_metric
    thr log0 :
  ∃ b0,
    MolecularNetwork.__init__ descriptor sim_metric thr log0
    = (inr b0, log0) ∧
    ∀ G log smiles_list (classes : list L),
      let b := with_graph (λ _, G) b0 in
      (descriptor ∉ supported_descriptors →
       ∀ smi mol rest,
         smiles_list = smi :: rest → MolFromSmiles smi = Some mol →
         create_graph smiles_list classes (b, log)
         = (inl (KeyError descriptor), (b, log ++ [smi]))) ∧
      (descriptor ∈ supported_descriptors →
       sim_metric ∉ supported_metrics →
       ∀ mols,
         Forall2 (λ smi mol, MolFromSmiles smi = Some mol) smiles_list mols →
         2 ≤ length smiles_list →
         create_graph smiles_list classes (b, log)
         = (inl (KeyError sim_metric),
            (with_graph (add_nodes_from (node_entries smiles_list classes)) b,
             log ++ smiles_list))) ∧
      (descriptor ∈ supported_descriptors →
       sim_metric ∈ supported_metrics →
       ∀ key,
         (create_graph smiles_list classes (b, log)).1 ≠ inl (KeyError key)).
Proof.
  destruct (init_spec descriptor sim_metric thr log0)
    as (b0 & Hinit & _ & _ & Hd & Hm & HD & HM & Htv & Hf2).
  exists b0. split; [done|]. intros G log smiles_list classes b.
  assert (descriptor_fn b = descriptor_fn b0) as HDb by done.
  assert (metric_fn b = metric_fn b0) as HMb by done.
  split_and!.
  - intros Hnot smi mol rest -> Hsmi.
    assert (descriptor_fn b = None) as HDnone.
    { rewrite HDb. apply eq_None_not_Some. by rewrite HD. }
    rewrite (create_graph_unknown_descriptor _ _ _ mol) by done.
    by rewrite <-Hd.
  - intros Hin Hnot mols Hparse Hlen.
    apply HD in Hin as [D HDsome]. rewrite <-HDb in HDsome.
    assert (metric_fn b = None) as HMnone.
    { rewrite HMb. apply eq_None_not_Some. by rewrite HM. }
    rewrite (create_graph_upto_edges _ _ _ _ mols D) by done.
    unfold bind at 1. rewrite add_edges_unknown.
    + by rewrite <-Hm.
    + done.
    + by rewrite length_fmap, <-(Forall2_length _ _ _ Hparse).
  - intros Hin Hmin key.
    apply HD in Hin as [D HDsome]. rewrite <-HDb in HDsome.
    destruct (parse_split smiles_list)
      as [(mols & Hparse)|(pre & bad & post & mols & -> & Hpre & Hbad)].
    2:{ rewrite (create_graph_invalid _ _ _ _ _ _ mols); eauto. }
    destruct (decide (sim_metric = "tversky")) as [Htversky|Hother].
    + destruct (Htv Htversky) as [g Hg]. rewrite <-HMb in Hg.
      rewrite (create_graph_upto_edges _ _ _ _ mols D) by done.
      unfold bind at 1.
      destruct (decide (2 ≤ length (D <$> mols))) as [Hlen|Hlen].
      * by rewrite (add_edges_arity _ _ g).
      * rewrite add_edges_short by lia. done.
    + destruct (Hf2 Hmin Hother) as [f Hf]. rewrite <-HMb in Hf.
      by rewrite (create_graph_run _ _ _ _ mols D f).
Qed.

(** C6, in the form that holds of the code. When the first identifier that
    does not parse is at position [k] (and, for [k > 0], the descriptor name
    is a key of the descriptor table), [create_graph] raises
    [InvalidSMILESError]; the exception is raised without arguments and so
    carries no identifier; the parser has been handed the identifiers up to
    position [k] and none after it; the builder, and with it the Network, is
    as it was before the call. *)
Theorem first_invalid_identifier_aborts `{Label L} b log smiles_list
    (classes : list L) k bad :
  smiles_list !! k = Some bad →
  MolFromSmiles bad = None →
  (∀ i smi, i < k → smiles_list !! i = Some smi →
            is_Some (MolFromSmiles smi)) →
  (0 < k → is_Some (descriptor_fn b)) →
  create_graph smiles_list classes (b, log)
  = (inl InvalidSMILESError, (b, log ++ take (S k) smiles_list)) ∧
  Py.args InvalidSMILESError = [].
Proof.
  intros Hk Hbad Hpre HD. split; [|done].
  rewrite <-(take_drop_middle smiles_list k bad Hk) at 1.
  destruct (parse_prefix (take k smiles_list)) as [mols Hmols].
  { intros smi Hsmi. apply list_elem_of_lookup in Hsmi as [i Hi].
    apply lookup_take_Some in Hi as [Hi ?]. by apply (Hpre i). }
  rewrite (take_S_r _ _ _ Hk).
  apply (create_graph_invalid _ _ _ _ _ _ mols); [done| |done].
  intros Hne. apply HD. destruct k; [|lia]. by rewrite take_0 in Hne.
Qed.

(** C8.  For two builders that differ in their threshold only, [t1 <= t2]
    (constructed with the same names, and having been through the same
    calls since), and an input whose identifiers all parse and that they can
    build (the names select a descriptor function and a two-argument
    metric): both builds return, every edge of the Network built with [t2]
    is an edge of the Network built with [t1], and the edge count with [t2]
    is at most the edge count with [t1]. *)
Theorem edge_count_antitone_in_threshold `{Label L} b1 b2 log1 log2
    smiles_list (classes : list L) mols D f :
  in_step b1 b2 →
  Forall2 (λ smi mol, MolFromSmiles smi = Some mol) smiles_list mols →
  descriptor_fn b1 = Some D →
  metric_fn b1 = Some (SimilarityCalculator.Fn2 f) →
  ∃ G1 G2 st1 st2,
    create_graph smiles_list classes (b1, log1) = (inr G1, st1) ∧
    create_graph smiles_list classes (b2, log2) = (inr G2, st2) ∧
    (sim_threshold b1 ≤ sim_threshold b2)%Qc ∧
    edges G2 ⊆ edges G1 ∧
    number_of_edges G2 ≤ number_of_edges G1.
Proof.
  intros Hstep Hparse HD Hf.
  destruct (in_step_invariant _ _ Hstep) as (Hfc & Hsc & Hle & Hprior).
  assert (descriptor_fn b2 = Some D) as HD2.
  { unfold descriptor_fn in *. by rewrite <-Hfc. }
  assert (metric_fn b2 = Some (SimilarityCalculator.Fn2 f)) as Hf2.
  { unfold metric_fn in *. by rewrite <-Hsc. }
  do 4 eexists.
  split; [by apply (create_graph_run _ _ _ _ mols D f)|].
  split; [by apply (create_graph_run _ _ _ _ mols D f)|].
  split; [done|].
  match goal with |- ?X ⊆ ?Y ∧ _ => assert (X ⊆ Y) as Hsub end.
  { intros [u v]. rewrite !elem_of_edges.
    rewrite !has_edge_add_edges_of, !has_edge_add_nodes_from.
    intros [Huv Hedge]. split; [done|].
    destruct Hedge as [?|[[? Hl]|[? Hl]]]; [left; by apply Hprior|right..].
    - left. split; [done|]. by eapply linked_antitone.
    - right. split; [done|]. by eapply linked_antitone. }
  split; [done|]. unfold number_of_edges. by apply subseteq_size.
Qed.

(** C9.  The Network of every builder a program can hold (as constructed,
    or after any number of calls of [create_graph], returned or raised) is a
    simple undirected graph: adjacency is symmetric, so [{i, j}] and
    [{j, i}] are the same edge; no edge [{i, i}] exists; and the edge view
    holds every edge once. *)
Theorem built_network_is_simple b : built b → simple (graph b).
Proof.
  induction 1 as [d m thr log b log' Hinit
                 |L HL smiles_list classes b log r b' log' _ IH Hrun].
  - destruct (init_spec d m thr log) as (b0 & Hb0 & _ & Hnew & _).
    rewrite Hb0 in Hinit. injection Hinit as <- _. rewrite Hnew.
    apply simple_new.
  - pose proof (create_graph_keeps (λ b, simple (graph b))
                  smiles_list classes) as Hkeeps.
    specialize (Hkeeps
      (λ b es, simple_add_nodes_from es (graph b))).
    specialize (Hkeeps
      (λ b i j Hij, simple_add_edge i j (graph b) (Nat.lt_neq _ _ Hij))).
    specialize (Hkeeps (b, log) IH). by rewrite Hrun in Hkeeps.
Qed.

(** C10.  A builder constructed with the metric name ["tversky"] holds a
    metric of four required parameters, which [calculate_similarity] calls
    with two: every call raises [TypeError], and whatever the Network holds,
    [create_graph] raises on every input of two identifiers or more. *)
Theorem tversky_metric_never_builds `{Label L} descriptor thr log0 :
  ∃ b0,
    MolecularNetwork.__init__ descriptor "tversky" thr log0
    = (inr b0, log0) ∧
    (∀ St fp1 fp2 (s : St),
       SimilarityCalculator.calculate_similarity
         (similarity_calculator b0) fp1 fp2 s
       = (inl TypeError, s)) ∧
    (∀ G log smiles_list (classes : list L),
       2 ≤ length smiles_list →
       ∃ e st',
         create_graph smiles_list classes (with_graph (λ _, G) b0, log)
         = (inl e, st')).
Proof.
  destruct (init_spec descriptor "tversky" thr log0)
    as (b0 & Hinit & _ & _ & _ & _ & _ & _ & Htv & _).
  destruct (Htv eq_refl) as [g Hg].
  exists b0. split_and!; [done| |].
  - intros St fp1 fp2 s. by apply (calculate_similarity_arity _ g).
  - intros G log smiles_list classes Hlen.
    set (b := with_graph (λ _, G) b0).
    assert (metric_fn b = Some (SimilarityCalculator.Fn4 g)) as Hgb by done.
    destruct (parse_split smiles_list)
      as [(mols & Hparse)|(pre & bad & post & mols & -> & Hpre & Hbad)].
    + destruct (descriptor_fn b) as [D|] eqn:HD.
      * rewrite (create_graph_upto_edges _ _ _ _ mols D) by done.
        unfold bind at 1. rewrite (add_edges_arity _ _ g); [eauto|done|].
        by rewrite length_fmap, <-(Forall2_length _ _ _ Hparse).
      * destruct Hparse as [|smi mol rest mols' Hsmi Hrest];
          [simpl in Hlen; lia|].
        rewrite (create_graph_unknown_descriptor _ _ _ mol) by done. eauto.
    + destruct (descriptor_fn b) as [D|] eqn:HD.
      * rewrite (create_graph_invalid _ _ _ _ _ _ mols); eauto.
      * destruct Hpre as [|smi mol rest mols' Hsmi Hrest].
        -- rewrite (create_graph_invalid _ _ [] _ _ _ []);
             [eauto|constructor|naive_solver|done].
        -- simpl.
           rewrite (create_graph_unknown_descriptor _ _ _ mol) by done. eauto.
Qed.

End claims.

(** * The package on the stub toolkit *)

Section stub_runs.
Import networkx MolecularNetwork Stub.
Local Open Scope string_scope.

(** ["CCO"] and ["CC"] parse, ["bogus!!"] does not. *)
Example stub_parses :
  MolFromSmiles "CCO" = Some "CCO" ∧ MolFromSmiles "CC" = Some "CC" ∧
  MolFromSmiles "bogus!!" = None.
Proof. done. Qed.

Example stub_default_builder :
  MolecularNetwork.__init__ "morgan2" "tanimoto" (Q2Qc (7 # 10)) []
  = (inr default_builder, []).
Proof. reflexivity. Qed.

(** The scenario of the specification: three structures, labels
    [x, y, x], every pair similar. *)
Example complete_graph_scenario :
  ∃ G,
    (create_graph ["CCO"; "CCN"; "CCC"] ["x"; "y"; "x"]
       (builder "morgan2" "tanimoto" (Q2Qc (1 # 2)), [])).1 = inr G ∧
    nodes G = [0; 1; 2] ∧
    elements (edges G) ≡ₚ [(0, 1); (0, 2); (1, 2)] ∧
    (λ n, d ← node_attr G n; d !! "categorical_label") <$> nodes G
    = [Some "x"; Some "y"; Some "x"].
Proof.
  eexists. split; [reflexivity|]. split; [reflexivity|].
  split; [|reflexivity]. vm_compute. apply perm_swap.
Qed.

(** The same setup with a threshold above every score: three nodes, no
    edge. *)
Example empty_graph_scenario :
  ∃ G,
    (create_graph ["CCO"; "CCN"; "CCC"] ["x"; "y"; "x"]
       (builder "morgan2" "tanimoto" (Q2Qc (3 # 2)), [])).1 = inr G ∧
    nodes G = [0; 1; 2] ∧ number_of_edges G = 0.
Proof. eexists. split_and!; reflexivity. Qed.

(** The Label Normalizer on the labels of the scenario, and on no label. *)
Example convert_classes_scenario :
  MolecularNetwork._convert_classes ["x"; "y"; "x"] ()
  = (inr (["x"; "y"], [0; 1; 0]), ()) ∧
  MolecularNetwork._convert_classes ([] : list string) ()
  = (inr ([], []), ()).
Proof. split; reflexivity. Qed.

(** C1: on a builder that has already built, the edge [{0, 1}] of the first
    build is still in the Network after a second build whose identifiers at
    positions 0 and 1 score [3/8], below the threshold [0.7]. *)
Lemma stale_edge_after_rebuild :
  Forall (λ smi, is_Some (MolFromSmiles smi)) ["CCO"; "CCCCCCCC"; "CCO"] ∧
  ∃ G1 G2,
    (create_graph ["CCO"; "CCO"; "CCO"] ["a"; "b"; "a"]
       (default_builder, [])).1 = inr G1 ∧
    (create_graph ["CCO"; "CCCCCCCC"; "CCO"] ["a"; "b"; "a"]
       (create_graph ["CCO"; "CCO"; "CCO"] ["a"; "b"; "a"]
          (default_builder, [])).2).1 = inr G2 ∧
    has_edge G2 0 1 = true ∧
    ¬ (sim_threshold default_builder
       < Py.max
           (TanimotoSimilarity
              (GetMorganFingerprintAsBitVect "CCO" 2 2048)
              (GetMorganFingerprintAsBitVect "CCCCCCCC" 2 2048))
           (TanimotoSimilarity
              (GetMorganFingerprintAsBitVect "CCCCCCCC" 2 2048)
              (GetMorganFingerprintAsBitVect "CCO" 2 2048)))%Qc.
Proof.
  split; [repeat constructor; by eexists|].
  do 2 eexists. split_and!; [reflexivity..|]. by vm_compute.
Qed.

(** C2: after a build of three structures, a build of one structure leaves
    three nodes in the Network, not one. *)
Lemma old_nodes_after_rebuild :
  Forall (λ smi, is_Some (MolFromSmiles smi)) ["CCO"] ∧
  ∃ G1 G2,
    (create_graph ["CCO"; "CC"; "CCCCCCCC"] ["a"; "b"; "a"]
       (default_builder, [])).1 = inr G1 ∧
    (create_graph ["CCO"] ["a"]
       (create_graph ["CCO"; "CC"; "CCCCCCCC"] ["a"; "b"; "a"]
          (default_builder, [])).2).1 = inr G2 ∧
    nodes G2 = [0; 1; 2] ∧ number_of_nodes G2 = 3 ∧
    number_of_nodes G2 ≠ length ["CCO"].
Proof.
  split; [repeat constructor; by eexists|].
  do 2 eexists. split_and!; [reflexivity..|done].
Qed.

(** C3: three identifiers and two labels on a new builder: the call returns
    instead of raising, and the Network, empty before, has three nodes and
    an edge; node 2, which has no label, is there without attributes. *)
Lemma length_mismatch_returns_and_mutates :
  length ["CCO"; "CC"; "CCO"] ≠ length ["a"; "b"] ∧
  graph default_builder = networkx.new ∧
  ∃ G,
    (create_graph ["CCO"; "CC"; "CCO"] ["a"; "b"] (default_builder, [])).1
    = inr G ∧
    graph (create_graph ["CCO"; "CC"; "CCO"] ["a"; "b"]
             (default_builder, [])).2.1 = G ∧
    nodes G = [0; 1; 2] ∧ has_edge G 0 2 = true ∧ node_attr G 2 = Some ∅.
Proof.
  split; [done|]. split; [done|]. eexists. split_and!; reflexivity.
Qed.

(** C4: a second build on the same builder against a build of the same
    inputs on a new builder: the first keeps node 2 and the edge [{0, 1}] of
    the earlier build, the second has neither. *)
Lemma rebuild_differs_from_fresh_build :
  ∃ G1 G2 Gf,
    (create_graph ["CCO"; "CCO"; "CC"] ["a"; "a"; "b"]
       (default_builder, [])).1 = inr G1 ∧
    (create_graph ["CCCCCCCC"; "C"] ["x"; "y"]
       (create_graph ["CCO"; "CCO"; "CC"] ["a"; "a"; "b"]
          (default_builder, [])).2).1 = inr G2 ∧
    (create_graph ["CCCCCCCC"; "C"] ["x"; "y"] (default_builder, [])).1
    = inr Gf ∧
    nodes G2 = [0; 1; 2] ∧ nodes Gf = [0; 1] ∧
    has_edge G2 0 1 = true ∧ has_edge Gf 0 1 = false.
Proof. do 3 eexists. split_and!; reflexivity. Qed.

(** C5: the constructor returns a builder for a descriptor name and for a
    metric name that are in neither table; the [KeyError] comes out of the
    build, for the metric after the two nodes have been added. *)
Lemma unknown_names_pass_the_constructor :
  ("ecfp4" ∉ supported_descriptors) ∧ ("jaccard" ∉ supported_metrics) ∧
  ∃ b_d b_m,
    MolecularNetwork.__init__ "ecfp4" "tanimoto" (Q2Qc (7 # 10)) []
    = (inr b_d, []) ∧
    MolecularNetwork.__init__ "morgan2" "jaccard" (Q2Qc (7 # 10)) []
    = (inr b_m, []) ∧
    (create_graph ["CCO"; "CCO"] ["a"; "b"] (b_d, [])).1
    = inl (KeyError "ecfp4") ∧
    (create_graph ["CCO"; "CCO"] ["a"; "b"] (b_m, [])).1
    = inl (KeyError "jaccard") ∧
    nodes (graph (create_graph ["CCO"; "CCO"] ["a"; "b"] (b_m, [])).2.1)
    = [0; 1].
Proof.
  split; [apply (bool_decide_unpack _); by vm_compute|].
  split; [apply (bool_decide_unpack _); by vm_compute|].
  do 2 eexists. split_and!; reflexivity.
Qed.

(** C6: two inputs that differ in the identifier that does not parse raise
    the very same exception, which has no arguments: the offending
    identifier cannot be read off it. *)
Lemma invalid_identifier_is_not_reported :
  MolFromSmiles "bogus!!" = None ∧ MolFromSmiles "C1CC?" = None ∧
  "bogus!!" ≠ "C1CC?" ∧
  (create_graph ["CCO"; "bogus!!"; "CC"] ["a"; "b"; "c"]
     (default_builder, [])).1 = inl InvalidSMILESError ∧
  (create_graph ["CCO"; "C1CC?"; "CC"] ["a"; "b"; "c"]
     (default_builder, [])).1 = inl InvalidSMILESError ∧
  Py.args InvalidSMILESError = [].
Proof. split_and!; by vm_compute. Qed.

(** ** The theorems at concrete inputs *)

(** C7: the three distinct integer labels [2^63 + 1], [2^63] and [-1] fit
    no common integer dtype, so the array holds doubles: the first two are
    stored as the same element, the vocabulary has two elements only, the
    labels at positions 0 and 1 get the same index, the element that index
    points at is not the label of position 0, and the [categorical_label]
    of node 0 is the string of the double, not that of the label. *)
Lemma big_integer_labels_collapse :
  NoDup [2 ^ 63 + 1; 2 ^ 63; -1]%Z ∧
  ∃ (vocabulary : list np.number) (indices : list nat) G,
    MolecularNetwork._convert_classes [2 ^ 63 + 1; 2 ^ 63; -1]%Z ()
    = (inr (vocabulary, indices), ()) ∧
    length vocabulary = 2%nat ∧
    indices = [1; 1; 0]%nat ∧
    np.number_value <$> vocabulary !! 1%nat = Some (2 ^ 63)%Z ∧
    (create_graph ["CCO"; "CC"; "C"] [2 ^ 63 + 1; 2 ^ 63; -1]%Z
       (default_builder, [])).1 = inr G ∧
    (node_attr G 0 ≫= λ d, d !! "categorical_label")
    = Some "9.223372036854776e+18" ∧
    pretty (2 ^ 63 + 1)%Z = "9223372036854775809".
Proof.
  split.
  - apply (bool_decide_unpack _). by vm_compute.
  - eexists _, _, _. split_and!; [by vm_compute..].
Qed.

Lemma edge_iff_prior_or_above_threshold_witness :
  ∃ G',
    (create_graph ["CCO"; "CC"; "CCO"] ["a"; "b"; "a"]
       (default_builder, [])).1 = inr G' ∧
    has_edge G' 0 2 = true ∧ has_edge G' 0 1 = false.
Proof.
  destruct (edge_iff_prior_or_above_threshold default_builder []
              ["CCO"; "CC"; "CCO"] ["a"; "b"; "a"] ["CCO"; "CC"; "CCO"]
              (λ m, GetMorganFingerprintAsBitVect m 2 2048)
              TanimotoSimilarity)
    as (G' & Hrun & _ & Hfresh).
  - repeat constructor.
  - reflexivity.
  - reflexivity.
  - exists G'. split; [by rewrite Hrun|]. split.
    + apply (Hfresh (λ _ _, eq_refl) 0 2 "CCO" "CCO");
        [lia|reflexivity|reflexivity|by vm_compute].
    + apply not_true_is_false.
      rewrite (Hfresh (λ _ _, eq_refl) 0 1 "CCO" "CC");
        [by vm_compute|lia|reflexivity|reflexivity].
Defined.

Lemma nodes_carry_identifier_and_label_witness :
  ∃ G' (vocabulary : list string) (indices : list nat),
    (create_graph ["CCO"; "CC"] ["b"; "a"] (default_builder, [])).1
    = inr G' ∧
    nodes G' = [0; 1] ∧
    ∃ i c, indices !! 1 = Some i ∧ vocabulary !! i = Some c ∧
      node_attr G' 1
      = Some {[ "smiles" := "CC"; "categorical_label" := str (c : string) ]}.
Proof.
  destruct (nodes_carry_identifier_and_label default_builder []
              ["CCO"; "CC"] ["b"; "a"] ["CCO"; "CC"]
              (λ m, GetMorganFingerprintAsBitVect m 2 2048)
              TanimotoSimilarity)
    as (G' & vocabulary & indices & Hrun & _ & _ & _ & Hfresh).
  - reflexivity.
  - repeat constructor.
  - reflexivity.
  - reflexivity.
  - destruct (Hfresh eq_refl) as (Hnodes & _ & Hattr).
    exists G', vocabulary, indices. split; [by rewrite Hrun|].
    split; [exact Hnodes|]. exact (Hattr 1 "CC" eq_refl).
Defined.

Lemma length_mismatch_builds_witness :
  length ["CCO"; "CC"; "CCO"] ≠ length ["a"; "b"] ∧
  ∃ G',
    (create_graph ["CCO"; "CC"; "CCO"] ["a"; "b"] (default_builder, [])).1
    = inr G' ∧
    ∃ d, node_attr G' 1 = Some d ∧ d !! "smiles" = Some "CC" ∧
         d !! "categorical_label" = Some "b".
Proof.
  split; [simpl; lia|].
  destruct (length_mismatch_builds default_builder []
              ["CCO"; "CC"; "CCO"] ["a"; "b"] ["CCO"; "CC"; "CCO"]
              (λ m, GetMorganFingerprintAsBitVect m 2 2048)
              TanimotoSimilarity)
    as (G' & Hrun & Hattr & _).
  - simpl. lia.
  - repeat constructor.
  - reflexivity.
  - reflexivity.
  - exists G'. split; [by rewrite Hrun|].
    exact (Hattr 1 "CC" "b" eq_refl eq_refl).
Defined.

Lemma rebuild_merges_into_previous_witness :
  ∃ G2 Gf,
    (create_graph ["CCCCCCCC"; "C"] ["x"; "y"]
       (create_graph ["CCO"; "CCO"; "CC"] ["a"; "a"; "b"]
          (default_builder, [])).2).1 = inr G2 ∧
    (create_graph ["CCCCCCCC"; "C"] ["x"; "y"] (default_builder, [])).1
    = inr Gf ∧
    has_edge G2 0 1
    = has_edge Gf 0 1
      || has_edge
           (graph (create_graph ["CCO"; "CCO"; "CC"] ["a"; "a"; "b"]
                     (default_builder, [])).2.1) 0 1.
Proof.
  destruct (rebuild_merges_into_previous
              (create_graph ["CCO"; "CCO"; "CC"] ["a"; "a"; "b"]
                 (default_builder, [])).2.1
              ["CCO"; "CCO"; "CC"] []
              ["CCCCCCCC"; "C"] ["x"; "y"] ["CCCCCCCC"; "C"]
              (λ m, GetMorganFingerprintAsBitVect m 2 2048)
              TanimotoSimilarity)
    as (G2 & Gf & Hrun2 & Hrunf & _ & Hedge & _).
  - repeat constructor.
  - reflexivity.
  - reflexivity.
  - exists G2, Gf. split_and!.
    + etrans; [|exact (f_equal fst Hrun2)]. reflexivity.
    + etrans; [|exact (f_equal fst Hrunf)]. reflexivity.
    + apply Hedge.
Defined.

Lemma names_are_looked_up_during_build_witness :
  (∃ b0,
     MolecularNetwork.__init__ "ecfp4" "tanimoto" (Q2Qc (7 # 10)) []
     = (inr b0, []) ∧
     create_graph ["CCO"] ["a"] (with_graph (λ _, networkx.new) b0, [])
     = (inl (KeyError "ecfp4"),
        (with_graph (λ _, networkx.new) b0, ["CCO"]))) ∧
  (∃ b0,
     MolecularNetwork.__init__ "morgan2" "jaccard" (Q2Qc (7 # 10)) []
     = (inr b0, []) ∧
     (create_graph ["CCO"; "CC"] ["a"; "b"]
        (with_graph (λ _, networkx.new) b0, [])).1
     = inl (KeyError "jaccard")) ∧
  (∃ b0,
     MolecularNetwork.__init__ "morgan2" "dice" (Q2Qc (7 # 10)) []
     = (inr b0, []) ∧
     (create_graph ["CCO"; "bogus!!"] ["a"; "b"]
        (with_graph (λ _, networkx.new) b0, [])).1
     ≠ inl (KeyError "morgan2")).
Proof.
  split_and!.
  - destruct (names_are_looked_up_during_build (L := string)
                "ecfp4" "tanimoto" (Q2Qc (7 # 10)) [])
      as (b0 & Hinit & Hbuild).
    exists b0. split; [exact Hinit|].
    destruct (Hbuild networkx.new [] ["CCO"] ["a"]) as (Hd & _ & _).
    assert ("ecfp4" ∉ supported_descriptors) as Hnot.
    { apply (bool_decide_unpack _). by vm_compute. }
    apply (Hd Hnot "CCO" "CCO" []); reflexivity.
  - destruct (names_are_looked_up_during_build (L := string)
                "morgan2" "jaccard" (Q2Qc (7 # 10)) [])
      as (b0 & Hinit & Hbuild).
    exists b0. split; [exact Hinit|].
    destruct (Hbuild networkx.new [] ["CCO"; "CC"] ["a"; "b"])
      as (_ & Hm & _).
    rewrite (Hm ltac:(apply (bool_decide_unpack _); by vm_compute)
                ltac:(apply (bool_decide_unpack _); by vm_compute)
                ["CCO"; "CC"]); [reflexivity|repeat constructor|simpl; lia].
  - destruct (names_are_looked_up_during_build (L := string)
                "morgan2" "dice" (Q2Qc (7 # 10)) [])
      as (b0 & Hinit & Hbuild).
    exists b0. split; [exact Hinit|].
    destruct (Hbuild networkx.new [] ["CCO"; "bogus!!"] ["a"; "b"])
      as (_ & _ & Hok).
    apply Hok; apply (bool_decide_unpack _); by vm_compute.
Defined.

Lemma first_invalid_identifier_aborts_witness :
  create_graph ["CCO"; "bogus!!"; "CC"] ["a"; "b"; "c"] (default_builder, [])
  = (inl InvalidSMILESError, (default_builder, ["CCO"; "bogus!!"])).
Proof.
  apply (first_invalid_identifier_aborts default_builder []
           ["CCO"; "bogus!!"; "CC"] ["a"; "b"; "c"] 1 "bogus!!").
  - reflexivity.
  - reflexivity.
  - intros i smi Hi. assert (i = 0) as -> by lia.
    intros [= <-]. by eexists.
  - intros _. by eexists.
Defined.

Lemma edge_count_antitone_in_threshold_witness :
  ∃ G1 G2,
    (create_graph ["CCO"; "CC"; "CCO"] ["a"; "b"; "a"]
       (create_graph ["CC"; "CC"] ["a"; "b"]
          (builder "morgan2" "tanimoto" (Q2Qc (1 # 2)), [])).2).1 = inr G1 ∧
    (create_graph ["CCO"; "CC"; "CCO"] ["a"; "b"; "a"]
       (create_graph ["CC"; "CC"] ["a"; "b"]
          (builder "morgan2" "tanimoto" (Q2Qc (7 # 10)), [])).2).1 = inr G2 ∧
    (number_of_edges G2 ≤ number_of_edges G1)%nat.
Proof.
  destruct (edge_count_antitone_in_threshold
              (create_graph ["CC"; "CC"] ["a"; "b"]
                 (builder "morgan2" "tanimoto" (Q2Qc (1 # 2)), [])).2.1
              (create_graph ["CC"; "CC"] ["a"; "b"]
                 (builder "morgan2" "tanimoto" (Q2Qc (7 # 10)), [])).2.1
              ["CC"; "CC"] ["CC"; "CC"]
              ["CCO"; "CC"; "CCO"] ["a"; "b"; "a"] ["CCO"; "CC"; "CCO"]
              (λ m, GetMorganFingerprintAsBitVect m 2 2048)
              TanimotoSimilarity)
    as (G1 & G2 & st1 & st2 & Hrun1 & Hrun2 & _ & _ & Hle).
  - eapply (in_step_create_graph string _ ["CC"; "CC"] ["a"; "b"]
              (builder "morgan2" "tanimoto" (Q2Qc (1 # 2)))
              (builder "morgan2" "tanimoto" (Q2Qc (7 # 10))) [] []).
    + eapply (in_step_init "morgan2" "tanimoto"
                (Q2Qc (1 # 2)) (Q2Qc (7 # 10)) [] []).
      * by vm_compute.
      * reflexivity.
      * reflexivity.
    + reflexivity.
    + reflexivity.
  - repeat constructor.
  - reflexivity.
  - reflexivity.
  - exists G1, G2. split_and!; [| |exact Hle].
    + etrans; [|exact (f_equal fst Hrun1)]. reflexivity.
    + etrans; [|exact (f_equal fst Hrun2)]. reflexivity.
Defined.

Lemma built_network_is_simple_witness :
  simple
    (graph (create_graph ["CCO"; "CC"; "CCO"] ["a"; "b"; "a"]
              (default_builder, [])).2.1).
Proof.
  apply built_network_is_simple.
  eapply (built_create_graph string _ ["CCO"; "CC"; "CCO"] ["a"; "b"; "a"]
            default_builder []).
  - eapply (built_init "morgan2" "tanimoto" (Q2Qc (7 # 10)) []).
    reflexivity.
  - reflexivity.
Defined.

Lemma tversky_metric_never_builds_witness :
  ∃ b0,
    MolecularNetwork.__init__ "morgan2" "tversky" (Q2Qc (7 # 10)) []
    = (inr b0, []) ∧
    ∃ e st',
      create_graph ["CCO"; "CCO"] ["a"; "b"]
        (with_graph (λ _, networkx.new) b0, [])
      = (inl e, st').
Proof.
  destruct (tversky_metric_never_builds (L := string)
              "morgan2" (Q2Qc (7 # 10)) [])
    as (b0 & Hinit & _ & Hbuild).
  exists b0. split; [exact Hinit|].
  apply Hbuild. simpl. lia.
Defined.

Lemma label_normalizer_round_trip_witness :
  ∃ (vocabulary : list np.number) (indices : list nat),
    MolecularNetwork._convert_classes [30; 10; 30]%Z ()
    = (inr (vocabulary, indices), ()) ∧
    ∃ i, indices !! 2 = Some i ∧
         vocabulary !! i = Some (np.mk_number np.int64 30).
Proof.
  destruct (@label_normalizer_round_trip _ Z int_ArrayLike [30; 10; 30]%Z
              (np.mk_number np.int64))
    as (vocabulary & indices & Hrun & _ & _ & _ & _ & Hidx & _).
  - reflexivity.
  - intros x c _ _. apply bool_decide_eq_true.
  - exists vocabulary, indices. split; [apply Hrun|].
    exact (Hidx 2 30%Z eq_refl).
Defined.

End stub_runs.

(** * Further properties of the package *)

(** ** similarity.py: the score of a pair *)

Section similarity_properties.
Context `{RDKit}.
Import networkx MolecularNetwork.

Lemma max_comm (a b : Qc) : Py.max a b = Py.max b a.
Proof.
  unfold Py.max, Py.gt. repeat case_bool_decide; try done.
  - exfalso. by eapply Qclt_not_le, Qclt_le_weak.
  - apply Qcle_antisym; by apply Qcnot_lt_le.
Qed.

Lemma max_upper (a b : Qc) :
  (a ≤ Py.max a b)%Qc ∧ (b ≤ Py.max a b)%Qc ∧
  (Py.max a b = a ∨ Py.max a b = b).
Proof.
  unfold Py.max, Py.gt. case_bool_decide as Hab.
  - split_and!; [by apply Qclt_le_weak|apply Qcle_refl|by right].
  - split_and!; [apply Qcle_refl|by apply Qcnot_lt_le|by left].
Qed.

(** X1.  [calculate_similarity] does not depend on the order of its two
    fingerprints, whatever the configured metric name: the two orders return
    the same score or raise the same exception.  When it returns, the metric
    is a two-argument one and the score is the larger of its values on the
    two orders.  The same holds of the builder's [_calculate_similarity]. *)
Theorem calculate_similarity_symmetric sc (fp1 fp2 : Fingerprint) :
  (∀ St (s : St),
     SimilarityCalculator.calculate_similarity sc fp1 fp2 s
     = SimilarityCalculator.calculate_similarity sc fp2 fp1 s) ∧
  (∀ st, _calculate_similarity fp1 fp2 st = _calculate_similarity fp2 fp1 st) ∧
  (∀ St (s s' : St) r,
     SimilarityCalculator.calculate_similarity sc fp1 fp2 s = (inr r, s') →
     ∃ f,
       dict_get (SimilarityCalculator.metrics sc)
         (SimilarityCalculator.sim_metric sc)
       = Some (SimilarityCalculator.Fn2 f) ∧
       (f fp1 fp2 ≤ r)%Qc ∧ (f fp2 fp1 ≤ r)%Qc ∧
       (r = f fp1 fp2 ∨ r = f fp2 fp1)).
Proof.
  assert (∀ sc' St (s : St),
    SimilarityCalculator.calculate_similarity sc' fp1 fp2 s
    = SimilarityCalculator.calculate_similarity sc' fp2 fp1 s) as Hsym.
  { intros sc' St s.
    unfold SimilarityCalculator.calculate_similarity, bind, dict_getitem.
    destruct (dict_get _ _) as [[f|g]|]; simpl; [|done..].
    by rewrite max_comm. }
  split_and!.
  - apply Hsym.
  - intros st. unfold _calculate_similarity, bind. simpl. apply Hsym.
  - intros St s s' r.
    unfold SimilarityCalculator.calculate_similarity, bind, dict_getitem.
    destruct (dict_get _ _) as [[f|g]|]; simpl; [|done..].
    intros [= <- _]. exists f. split; [done|]. apply max_upper.
Qed.

End similarity_properties.

(** ** graph.py: the indices of the Label Normalizer *)

Section label_properties.
Context `{Label L}.
Implicit Types (classes : list L).

Lemma sorted_lookup_lt (R : relation L) (l : list L) i j x y :
  StronglySorted R l → i < j → l !! i = Some x → l !! j = Some y → R x y.
Proof.
  intros Hs. revert i j. induction Hs as [|z l Hs IH Hz]; intros i j Hij Hi Hj.
  { done. }
  destruct j as [|j]; [lia|]. simpl in Hj. destruct i as [|i]; simpl in Hi.
  - simplify_eq. rewrite Forall_forall in Hz. apply Hz.
    by eapply list_elem_of_lookup_2.
  - apply (IH i j); [lia|done..].
Qed.

(** The indices of the elements of an array in its sorted distinct
    elements. *)
Lemma indices_follow_elements (ar : list L) :
  let vocabulary := np.unique ar in
  let indices := index_in vocabulary <$> ar in
  length vocabulary ≤ length ar ∧
  (∀ p i, indices !! p = Some i → i < length vocabulary) ∧
  (∀ i, i < length vocabulary → ∃ p, indices !! p = Some i) ∧
  (∀ p q c_p c_q i_p i_q,
     ar !! p = Some c_p → ar !! q = Some c_q →
     indices !! p = Some i_p → indices !! q = Some i_q →
     (i_p ≤ i_q ↔ label_le c_p c_q) ∧ (i_p = i_q ↔ c_p = c_q)).
Proof.
  intros vocabulary indices. unfold indices.
  assert (∀ p c i, ar !! p = Some c →
            (index_in vocabulary <$> ar) !! p = Some i →
            vocabulary !! i = Some c) as Hidx.
  { intros p c i Hc Hi. rewrite list_lookup_fmap, Hc in Hi. simplify_eq/=.
    apply index_in_lookup, elem_of_unique. by eapply list_elem_of_lookup_2. }
  assert (∀ i j x y, i < j → vocabulary !! i = Some x →
            vocabulary !! j = Some y → strict label_le x y) as Hlt.
  { intros i j x y. apply sorted_lookup_lt, unique_sorted. }
  assert (∀ i_p i_q c_p c_q, vocabulary !! i_p = Some c_p →
            vocabulary !! i_q = Some c_q →
            i_p ≤ i_q ↔ label_le c_p c_q) as Hle.
  { intros i_p i_q c_p c_q Hp Hq. split.
    - intros Hpq. destruct (decide (i_p = i_q)) as [->|Hne].
      + by simplify_eq.
      + apply (Hlt i_p i_q); [lia|done..].
    - intros Hcc. destruct (decide (i_p ≤ i_q)) as [|Hgt]; [done|].
      destruct (Hlt i_q i_p c_q c_p) as [_ Hn]; [lia|done..|]. done. }
  split_and!.
  - apply submseteq_length, NoDup_submseteq; [apply unique_NoDup|].
    intros c. apply elem_of_unique.
  - intros p i Hi. rewrite list_lookup_fmap in Hi.
    destruct (ar !! p) as [c|] eqn:Hc; simplify_eq/=.
    eapply lookup_lt_Some, (Hidx p c); [done|].
    by rewrite list_lookup_fmap, Hc.
  - intros i Hi. destruct (lookup_lt_is_Some_2 vocabulary i Hi) as [c Hc].
    assert (c ∈ ar) as Hin.
    { apply elem_of_unique. by eapply list_elem_of_lookup_2. }
    apply list_elem_of_lookup in Hin as [p Hp]. exists p.
    rewrite list_lookup_fmap, Hp. simpl. f_equal.
    eapply NoDup_lookup; [apply unique_NoDup| |exact Hc].
    apply index_in_lookup, elem_of_unique. by eapply list_elem_of_lookup_2.
  - intros p q c_p c_q i_p i_q Hcp Hcq Hip Hiq.
    pose proof (Hidx p c_p i_p Hcp Hip) as Hvp.
    pose proof (Hidx q c_q i_q Hcq Hiq) as Hvq.
    split; [by apply Hle|]. split.
    + intros ->. by simplify_eq.
    + intros ->. eapply NoDup_lookup; [apply unique_NoDup|done..].
Qed.

(** X3.  The vocabulary depends on the set of labels only: two label
    sequences with the same elements, in any order and with any repetition,
    get the same vocabulary, and every label gets the same index in both.
    In particular the vocabulary of a vocabulary is itself. *)
Theorem vocabulary_depends_on_label_set classes1 classes2 :
  (∀ c, c ∈ classes1 ↔ c ∈ classes2) →
  np.unique classes1 = np.unique classes2 ∧
  (∀ c, index_in (np.unique classes1) c = index_in (np.unique classes2) c) ∧
  np.unique (np.unique classes1) = np.unique classes1.
Proof.
  assert (∀ l1 l2 : list L, (∀ c, c ∈ l1 ↔ c ∈ l2) →
            np.unique l1 = np.unique l2) as Huniq.
  { intros l1 l2 Hsame.
    apply (StronglySorted_unique_strong (strict label_le));
      [|apply unique_sorted..|].
    - intros x1 x2 _ _ [_ Hn] [Hle _]. done.
    - apply NoDup_Permutation; [apply unique_NoDup..|].
      intros c. by rewrite !elem_of_unique. }
  intros Hsame. split_and!.
  - by apply Huniq.
  - intros c. by rewrite (Huniq _ _ Hsame).
  - apply Huniq. intros c. apply elem_of_unique.
Qed.

End label_properties.

Section index_properties.
Context `{ArrayLike R}.

(** X2.  For raw labels that the conversion to an array keeps apart (every
    label is stored as an element of its own, which [==] identifies with
    that label only, as for strings and for Python integers that all fit
    [int64]): the indices [_convert_classes] returns are positions in the
    vocabulary, the vocabulary is not longer than the input, every position
    of the vocabulary is the index of some label, and the indices follow the
    order of the stored labels: the index at [p] is at most the index at
    [q] exactly when the stored label at [p] is at most the one at [q]; and
    two positions have the same index exactly when they have the same
    label. *)
Theorem convert_classes_indices_follow_labels (classes : list R)
    (stored : R → Elem R) :
  asanyarray classes = stored <$> classes →
  (∀ x c, x ∈ classes → c ∈ classes →
          array_eq (stored x) c = true ↔ x = c) →
  ∃ vocabulary indices,
    (∀ St (s : St),
       MolecularNetwork._convert_classes classes s
       = (inr (vocabulary, indices), s)) ∧
    length vocabulary ≤ length classes ∧
    (∀ p i, indices !! p = Some i → i < length vocabulary) ∧
    (∀ i, i < length vocabulary → ∃ p, indices !! p = Some i) ∧
    (∀ p q c_p c_q i_p i_q,
       classes !! p = Some c_p → classes !! q = Some c_q →
       indices !! p = Some i_p → indices !! q = Some i_q →
       (i_p ≤ i_q ↔ label_le (stored c_p) (stored c_q)) ∧
       (i_p = i_q ↔ c_p = c_q)).
Proof.
  intros Harray Heq.
  destruct (indices_follow_elements (stored <$> classes))
    as (Hlen & Hrange & Hdense & Horder).
  eexists _, _. split_and!.
  - intros St s. by apply convert_classes_stored_run.
  - by rewrite length_fmap in Hlen.
  - exact Hrange.
  - exact Hdense.
  - intros p q c_p c_q i_p i_q Hcp Hcq Hip Hiq.
    destruct (Horder p q (stored c_p) (stored c_q) i_p i_q)
      as [Hle Hsame]; [by rewrite list_lookup_fmap, ?Hcp, ?Hcq..|done|done|].
    split; [done|]. rewrite Hsame. split; [|by intros ->].
    intros Hst. apply (Heq c_p c_q).
    + by eapply list_elem_of_lookup_2.
    + by eapply list_elem_of_lookup_2.
    + rewrite Hst. apply Heq; [by eapply list_elem_of_lookup_2..|done].
Qed.

End index_properties.


(** ** graph.py: the outcomes of a build *)

Section outcome_facts.
Context `{RDKit}.
Import networkx MolecularNetwork.
Implicit Types (b : MolecularNetwork.t) (log : Log) (G : Graph).

Lemma create_graph_nil `{Label L} b log (classes : list L) :
  create_graph [] classes (b, log) = (inr (graph b), (b, log)).
Proof.
  unfold create_graph, _create_graph. unfold bind at 1. unfold bind at 1.
  unfold bind at 1. cbn [_calculate_fingerprints comprehension ret].
  unfold bind at 1. rewrite convert_classes_run.
  unfold bind at 1. rewrite add_nodes_run.
  rewrite add_edges_short by (simpl; lia).
  unfold self, ret. simpl. by destruct b.
Qed.

Lemma create_graph_parsed `{Label L} b log smiles_list (classes : list L)
    mols D :
  Forall2 (λ smi mol, MolFromSmiles smi = Some mol) smiles_list mols →
  descriptor_fn b = Some D →
  create_graph smiles_list classes (b, log)
  = let b1 :=
      with_graph (add_nodes_from (node_entries smiles_list classes)) b in
    if decide (length smiles_list < 2)
    then (inr (graph b1), (b1, log ++ smiles_list))
    else
      match metric_fn b with
      | Some (SimilarityCalculator.Fn2 f) =>
          (inr (add_edges_of (sim_threshold b) f (D <$> mols) (graph b1)),
           (with_graph (add_edges_of (sim_threshold b) f (D <$> mols)) b1,
            log ++ smiles_list))
      | Some (SimilarityCalculator.Fn4 _) =>
          (inl TypeError, (b1, log ++ smiles_list))
      | None =>
          (inl (KeyError (SimilarityCalculator.sim_metric
                            (similarity_calculator b))),
           (b1, log ++ smiles_list))
      end.
Proof.
  intros Hparse HD. cbv zeta.
  rewrite (create_graph_upto_edges _ _ _ _ mols D) by done.
  assert (length (D <$> mols) = length smiles_list) as Hlen.
  { rewrite length_fmap. symmetry. by eapply Forall2_length. }
  unfold bind at 1. case_decide as HN.
  - rewrite add_edges_short by lia. done.
  - destruct (metric_fn b) as [[f|g]|] eqn:Hm.
    + by rewrite (add_edges_run _ _ f).
    + by rewrite (add_edges_arity _ _ g) by (done || lia).
    + by rewrite add_edges_unknown by (done || lia).
Qed.

Lemma parsed_all (smiles_list : list string) mols :
  Forall2 (λ smi mol, MolFromSmiles smi = Some mol) smiles_list mols →
  ∀ smi, smi ∈ smiles_list → is_Some (MolFromSmiles smi).
Proof.
  intros Hparse smi Hsmi. apply list_elem_of_lookup in Hsmi as [i Hi].
  destruct (Forall2_lookup_l _ _ _ _ _ Hparse Hi) as (mol & _ & ->). eauto.
Qed.

(** The seven ways a call of [create_graph] can go; which one it is does
    not depend on the labels. *)
Lemma create_graph_cases b log smiles_list :
  (∃ k bad,
     smiles_list !! k = Some bad ∧ MolFromSmiles bad = None ∧
     (∀ i smi, i < k → smiles_list !! i = Some smi →
               is_Some (MolFromSmiles smi)) ∧
     (0 < k → is_Some (descriptor_fn b)) ∧
     ∀ (L : Type) (HL : Label L) (classes : list L),
       create_graph smiles_list classes (b, log)
       = (inl InvalidSMILESError, (b, log ++ take (S k) smiles_list)))
  ∨ (∃ smi mol,
       smiles_list !! 0 = Some smi ∧ MolFromSmiles smi = Some mol ∧
       descriptor_fn b = None ∧
       ∀ (L : Type) (HL : Label L) (classes : list L),
         create_graph smiles_list classes (b, log)
         = (inl (KeyError (FingerprintCalculator.descriptor
                             (fingerprint_calculator b))),
            (b, log ++ take 1 smiles_list)))
  ∨ (∃ mols,
       Forall2 (λ smi mol, MolFromSmiles smi = Some mol) smiles_list mols ∧
       (smiles_list ≠ [] → is_Some (descriptor_fn b)) ∧
       ((length smiles_list < 2 ∧
         ∀ (L : Type) (HL : Label L) (classes : list L),
           create_graph smiles_list classes (b, log)
           = (inr (add_nodes_from (node_entries smiles_list classes)
                     (graph b)),
              (with_graph
                 (add_nodes_from (node_entries smiles_list classes)) b,
               log ++ smiles_list)))
        ∨ (2 ≤ length smiles_list ∧ ∃ D, descriptor_fn b = Some D ∧
           ((∃ f, metric_fn b = Some (SimilarityCalculator.Fn2 f) ∧
               ∀ (L : Type) (HL : Label L) (classes : list L),
                 create_graph smiles_list classes (b, log)
                 = (inr (add_edges_of (sim_threshold b) f (D <$> mols)
                           (add_nodes_from
                              (node_entries smiles_list classes) (graph b))),
                    (with_graph
                       (λ G, add_edges_of (sim_threshold b) f (D <$> mols)
                               (add_nodes_from
                                  (node_entries smiles_list classes) G)) b,
                     log ++ smiles_list)))
            ∨ (∃ g, metric_fn b = Some (SimilarityCalculator.Fn4 g) ∧
                 ∀ (L : Type) (HL : Label L) (classes : list L),
                   create_graph smiles_list classes (b, log)
                   = (inl TypeError,
                      (with_graph
                         (add_nodes_from (node_entries smiles_list classes))
                         b,
                       log ++ smiles_list)))
            ∨ (metric_fn b = None ∧
               ∀ (L : Type) (HL : Label L) (classes : list L),
                 create_graph smiles_list classes (b, log)
                 = (inl (KeyError (SimilarityCalculator.sim_metric
                                     (similarity_calculator b))),
                    (with_graph
                       (add_nodes_from (node_entries smiles_list classes))
                       b,
                     log ++ smiles_list))))))).
Proof.
  destruct (parse_split smiles_list)
    as [(mols & Hparse)|(pre & bad & post & mols & -> & Hpre & Hbad)].
  - destruct (descriptor_fn b) as [D|] eqn:HD.
    + right. right. exists mols. split_and!; [done|eauto|].
      destruct (decide (length smiles_list < 2)) as [HN|HN].
      * left. split; [done|]. intros L HL classes.
        rewrite (create_graph_parsed _ _ _ _ mols D) by done. cbv zeta.
        by rewrite decide_True.
      * right. split; [lia|]. exists D. split; [done|].
        destruct (metric_fn b) as [[f|g]|] eqn:Hm.
        -- left. exists f. split; [done|]. intros L HL classes.
           rewrite (create_graph_parsed _ _ _ _ mols D) by done. cbv zeta.
           by rewrite decide_False, Hm.
        -- right. left. exists g. split; [done|]. intros L HL classes.
           rewrite (create_graph_parsed _ _ _ _ mols D) by done. cbv zeta.
           by rewrite decide_False, Hm.
        -- right. right. split; [done|]. intros L HL classes.
           rewrite (create_graph_parsed _ _ _ _ mols D) by done. cbv zeta.
           by rewrite decide_False, Hm.
    + destruct Hparse as [|smi mol rest mols' Hsmi Hrest].
      * right. right. exists []. split_and!; [done..|].
        left. split; [simpl; lia|]. intros L HL classes.
        rewrite create_graph_nil, app_nil_r. by destruct b.
      * right. left. exists smi, mol. split_and!; [done..|].
        intros L HL classes.
        by rewrite (create_graph_unknown_descriptor _ _ _ mol).
  - assert (∀ i smi, i < length pre → (pre ++ bad :: post) !! i = Some smi →
              is_Some (MolFromSmiles smi)) as Hbefore.
    { intros i smi Hi Hsmi. rewrite lookup_app_l in Hsmi by done.
      eapply parsed_all; [done|]. by eapply list_elem_of_lookup_2. }
    assert (take (S (length pre)) (pre ++ bad :: post) = pre ++ [bad])
      as Htake.
    { rewrite (take_S_r _ _ bad) by (by apply list_lookup_middle).
      by rewrite take_app_length. }
    destruct (descriptor_fn b) as [D|] eqn:HD.
    + left. exists (length pre), bad.
      split_and!; [by apply list_lookup_middle|done|done|eauto|].
      intros L HL classes. rewrite Htake.
      apply (create_graph_invalid _ _ _ _ _ _ mols); eauto.
    + destruct Hpre as [|smi mol rest mols' Hsmi Hrest].
      * left. exists 0, bad. split_and!; [done|done|lia|lia|].
        intros L HL classes.
        apply (create_graph_invalid _ _ [] _ _ _ []);
          [constructor|naive_solver|done].
      * right. left. exists smi, mol. split_and!; [done..|].
        intros L HL classes.
        by rewrite <-app_comm_cons,
          (create_graph_unknown_descriptor _ _ _ mol).
Qed.

Lemma create_graph_returns_cond `{Label L} b log smiles_list
    (classes : list L) :
  (∃ G st', create_graph smiles_list classes (b, log) = (inr G, st'))
  ↔ (∀ smi, smi ∈ smiles_list → is_Some (MolFromSmiles smi)) ∧
    (smiles_list ≠ [] → is_Some (descriptor_fn b)) ∧
    (2 ≤ length smiles_list →
     ∃ f, metric_fn b = Some (SimilarityCalculator.Fn2 f)).
Proof.
  destruct (create_graph_cases b log smiles_list)
    as [(k & bad & Hk & Hbad & Hpre & _ & Hrun)
       |[(smi & mol & Hsmi & Hmol & HD & Hrun)
        |(mols & Hparse & HD' &
           [[HN Hrun]|(HN & D & HD &
              [(f & Hm & Hrun)|[(g & Hm & Hrun)|(Hm & Hrun)]])])]];
    rewrite Hrun.
  - split; [by intros (? & ? & ?)|]. intros (Hall & _).
    destruct (Hall bad) as [mol Hmol]; [by eapply list_elem_of_lookup_2|].
    congruence.
  - split; [by intros (? & ? & ?)|]. intros (_ & HDs & _).
    destruct HDs as [D' HD']; [by intros ->|]. congruence.
  - split; [|eauto]. intros _. split_and!; [by eapply parsed_all|done|lia].
  - split; [|eauto]. intros _. split_and!; [by eapply parsed_all|done|eauto].
  - split; [by intros (? & ? & ?)|]. intros (_ & _ & Hf).
    destruct (Hf HN) as [f Hf']. congruence.
  - split; [by intros (? & ? & ?)|]. intros (_ & _ & Hf).
    destruct (Hf HN) as [f Hf']. congruence.
Qed.

Lemma create_graph_raise_state `{Label L} b log smiles_list
    (classes : list L) e b' log' :
  create_graph smiles_list classes (b, log) = (inl e, (b', log')) →
  b' = b ∨
  b' = with_graph (add_nodes_from (node_entries smiles_list classes)) b.
Proof.
  destruct (create_graph_cases b log smiles_list)
    as [(k & bad & Hk & Hbad & Hpre & _ & Hrun)
       |[(smi & mol & Hsmi & Hmol & HD & Hrun)
        |(mols & Hparse & HD' &
           [[HN Hrun]|(HN & D & HD &
              [(f & Hm & Hrun)|[(g & Hm & Hrun)|(Hm & Hrun)]])])]];
    rewrite Hrun;
    intros [= <- <- <-] || intros [= <- <-] || intros [=]; eauto.
Qed.

End outcome_facts.

(** ** What a build can add *)

Section extension_facts.
Context `{RDKit}.
Import networkx MolecularNetwork.
Implicit Types (b : MolecularNetwork.t) (log : Log) (G : Graph) (thr : Qc).
Implicit Types (f : Fingerprint → Fingerprint → Qc).
Implicit Types (fps : list Fingerprint).

Lemma nodes_add_nodes_from_prefix es G :
  nodes G `prefix_of` nodes (add_nodes_from es G).
Proof.
  unfold add_nodes_from. revert G.
  induction es as [|e es IH]; intros G; simpl; [done|].
  etrans; [|apply IH]. rewrite nodes_add_node.
  case_decide; [done|]. by apply prefix_app_r.
Qed.

Lemma elem_of_nodes_add_edge u v G n :
  n ∈ nodes (add_edge u v G) ↔ n = u ∨ n = v ∨ n ∈ nodes G.
Proof.
  rewrite <-!node_attr_is_Some, node_attr_add_edge.
  case_decide as Hn; [|naive_solver]. split; [naive_solver|eauto].
Qed.

Lemma nodes_add_edge_prefix u v G :
  nodes G `prefix_of` nodes (add_edge u v G).
Proof.
  unfold add_edge. rewrite !nodes_alter_node, !nodes_ensure_node.
  repeat case_decide; try done.
  - by apply prefix_app_r.
  - by apply prefix_app_r.
  - rewrite <-app_assoc. by apply prefix_app_r.
Qed.

Lemma nodes_foldl_link_prefix thr f fps ps G :
  nodes G `prefix_of` nodes (foldl (link thr f fps) G ps).
Proof.
  revert G. induction ps as [|p ps IH]; intros G; simpl; [done|].
  etrans; [|apply IH]. unfold link.
  destruct (linked _ _ _ _ _); [apply nodes_add_edge_prefix|done].
Qed.

Lemma elem_of_nodes_foldl_link thr f fps ps G n :
  n ∈ nodes (foldl (link thr f fps) G ps) →
  n ∈ nodes G ∨
  ∃ i j, (i, j) ∈ ps ∧ linked thr f fps i j = true ∧ (n = i ∨ n = j).
Proof.
  revert G. induction ps as [|[i j] ps IH]; intros G; simpl; [by left|].
  intros Hn. destruct (IH _ Hn) as [Hn'|(i' & j' & Hin & Hl & Hor)].
  - unfold link in Hn'. simpl in Hn'.
    destruct (linked thr f fps i j) eqn:Hl; [|by left].
    apply elem_of_nodes_add_edge in Hn' as [->|[->|?]]; [..|by left].
    + right. exists i, j. split_and!; [left|done|by left].
    + right. exists i, j. split_and!; [left|done|by right].
  - right. exists i', j'. split_and!; [by right|done..].
Qed.

Lemma elem_of_nodes_add_nodes_from es G n :
  n ∈ nodes (add_nodes_from es G) ↔ n ∈ nodes G ∨ n ∈ es.*1.
Proof.
  unfold add_nodes_from. revert G.
  induction es as [|e es IH]; intros G; simpl.
  { rewrite elem_of_nil. naive_solver. }
  rewrite IH, nodes_add_node, elem_of_cons. case_decide as He.
  - split; [naive_solver|]. intros [?|[->|?]]; eauto.
  - rewrite elem_of_app, list_elem_of_singleton. naive_solver.
Qed.

Lemma node_attr_add_nodes_from_keeps es G n d :
  NoDup es.*1 → node_attr G n = Some d →
  ∃ d', node_attr (add_nodes_from es G) n = Some d' ∧
    (d' = d ∨ ∃ i new, es !! i = Some (n, new) ∧ d' = new ∪ d).
Proof.
  intros Hnd Hd. destruct (decide (n ∈ es.*1)) as [Hin|Hout].
  - apply list_elem_of_fmap in Hin as ([n' new] & -> & Hin).
    apply list_elem_of_lookup in Hin as [i Hi].
    exists (new ∪ d). split; [|right; eauto].
    rewrite (node_attr_add_nodes_from _ _ i _ new) by done.
    by rewrite Hd.
  - exists d. split; [|by left].
    by rewrite node_attr_add_nodes_from_other.
Qed.

Lemma mapM_parse_length (smiles_list : list string) mols :
  mapM MolFromSmiles smiles_list = Some mols →
  length mols = length smiles_list.
Proof. intros Hm. symmetry. by eapply length_mapM. Qed.


Lemma NoDup_pairs n : NoDup (pairs n).
Proof.
  unfold pairs. apply NoDup_bind; [| |apply NoDup_seq].
  - intros i1 i2 [i j] _ _ Hi1 Hi2.
    apply list_elem_of_fmap in Hi1 as (j1 & [= -> ->] & _).
    by apply list_elem_of_fmap in Hi2 as (j2 & [= -> ->] & _).
  - intros i _. apply NoDup_fmap_2; [|apply NoDup_seq].
    by intros j1 j2 [= ->].
Qed.

Lemma length_pairs_from k n :
  k ≤ n →
  2 * length (seq (n - k) k ≫= λ i, pair i <$> seq (i + 1) (n - (i + 1)))
  = k * (k - 1).
Proof.
  induction k as [|k IH]; intros Hk; [done|].
  replace (seq (n - S k) (S k)) with ((n - S k) :: seq (n - k) k)
    by (simpl; f_equal; f_equal; lia).
  rewrite bind_cons, length_app, length_fmap, length_seq.
  specialize (IH ltac:(lia)). nia.
Qed.

Lemma length_pairs n : 2 * length (pairs n) = n * (n - 1).
Proof.
  unfold pairs. rewrite <-(length_pairs_from n n) by done.
  by rewrite Nat.sub_diag.
Qed.

Lemma growth_has_edge `{Label L} b smiles_list (classes : list L) G u v :
  has_edge (growth b smiles_list classes G) u v = true →
  has_edge G u v = true ∨
  (u < v ∨ v < u) ∧ u < length smiles_list ∧ v < length smiles_list.
Proof.
  unfold growth.
  destruct (mapM MolFromSmiles smiles_list) as [mols|] eqn:Hm; [|by left].
  destruct (descriptor_fn b) as [D|]; [|by left]. cbv zeta.
  assert (length (D <$> mols) = length smiles_list) as Hlen.
  { rewrite length_fmap. by apply mapM_parse_length. }
  destruct (metric_fn b) as [[f|g]|];
    rewrite ?has_edge_add_edges_of, !has_edge_add_nodes_from; [|by left..].
  intros [?|[[? Hl]|[? Hl]]]; [by left|right..];
    apply linked_lt in Hl; rewrite Hlen in Hl; lia.
Qed.

Lemma growth_has_edge_keeps `{Label L} b smiles_list (classes : list L)
    G u v :
  has_edge G u v = true →
  has_edge (growth b smiles_list classes G) u v = true.
Proof.
  intros Huv. unfold growth.
  destruct (mapM MolFromSmiles smiles_list) as [mols|]; [|done].
  destruct (descriptor_fn b) as [D|]; [|done]. cbv zeta.
  destruct (metric_fn b) as [[f|g]|];
    rewrite ?has_edge_add_edges_of, !has_edge_add_nodes_from; eauto.
Qed.

Lemma growth_nodes_prefix `{Label L} b smiles_list (classes : list L) G :
  nodes G `prefix_of` nodes (growth b smiles_list classes G).
Proof.
  unfold growth.
  destruct (mapM MolFromSmiles smiles_list) as [mols|]; [|done].
  destruct (descriptor_fn b) as [D|]; [|done]. cbv zeta.
  destruct (metric_fn b) as [[f|g]|];
    try apply nodes_add_nodes_from_prefix.
  etrans; [apply nodes_add_nodes_from_prefix|].
  apply nodes_foldl_link_prefix.
Qed.

Lemma growth_nodes `{Label L} b smiles_list (classes : list L) G n :
  n ∈ nodes (growth b smiles_list classes G) →
  n ∈ nodes G ∨ n < length smiles_list.
Proof.
  unfold growth.
  destruct (mapM MolFromSmiles smiles_list) as [mols|] eqn:Hm; [|by left].
  destruct (descriptor_fn b) as [D|]; [|by left]. cbv zeta.
  assert (length (D <$> mols) = length smiles_list) as Hlen.
  { rewrite length_fmap. by apply mapM_parse_length. }
  assert (n ∈ nodes (add_nodes_from (node_entries smiles_list classes) G) →
          n ∈ nodes G ∨ n < length smiles_list) as Hnodes.
  { rewrite elem_of_nodes_add_nodes_from, node_entries_keys, elem_of_seq.
    intros [?|?]; [by left|right; lia]. }
  destruct (metric_fn b) as [[f|g]|]; [|done..].
  intros Hn. apply elem_of_nodes_foldl_link in Hn
    as [?|(i & j & _ & Hl & Hor)]; [by apply Hnodes|].
  right. apply linked_lt in Hl. rewrite Hlen in Hl. lia.
Qed.

Lemma node_entries_attrs `{Label L} smiles_list (classes : list L) i n new :
  node_entries smiles_list classes !! i = Some (n, new) →
  ∃ smi c, smiles_list !! n = Some smi ∧ classes !! n = Some c ∧
    new = {[ "smiles" := smi; "categorical_label" := str c ]}.
Proof.
  unfold node_entries. rewrite list_lookup_imap.
  destruct (zip smiles_list classes !! i) as [[smi c]|] eqn:Hz; [|done].
  intros [= <- <-]. apply lookup_zip_with_Some in Hz
    as (smi' & c' & [= <- <-] & Hsmi & Hc). by exists smi, c.
Qed.

Lemma growth_node_attr `{Label L} b smiles_list (classes : list L) G n d :
  node_attr G n = Some d →
  ∃ d', node_attr (growth b smiles_list classes G) n = Some d' ∧
    (d' = d ∨
     ∃ smi c, smiles_list !! n = Some smi ∧ classes !! n = Some c ∧
       d' = {[ "smiles" := smi; "categorical_label" := str c ]} ∪ d).
Proof.
  intros Hd. unfold growth.
  destruct (mapM MolFromSmiles smiles_list) as [mols|]; [|eauto].
  destruct (descriptor_fn b) as [D|]; [|eauto]. cbv zeta.
  destruct (node_attr_add_nodes_from_keeps
              (node_entries smiles_list classes) G n d)
    as (d' & Hd' & Hor); [apply node_entries_NoDup|done|].
  exists d'. split.
  - destruct (metric_fn b) as [[f|g]|]; [|done..].
    unfold add_edges_of. rewrite node_attr_foldl_link; [done|].
    apply node_attr_is_Some. by rewrite Hd'.
  - destruct Hor as [?|(i & new & Hi & ->)]; [by left|right].
    apply node_entries_attrs in Hi as (smi & c & ? & ? & ->). eauto.
Qed.

Lemma growth_edges `{Label L} b smiles_list (classes : list L) G :
  edges (growth b smiles_list classes G)
  ⊆ edges G ∪ list_to_set (pairs (length smiles_list)).
Proof.
  intros [u v]. rewrite elem_of_union, elem_of_list_to_set, !elem_of_edges,
    elem_of_pairs.
  intros [Huv Hedge]. apply growth_has_edge in Hedge as [?|?];
    [by left|right; lia].
Qed.

End extension_facts.

(** ** Building twice *)

Section repeat_facts.
Context `{RDKit}.
Import networkx MolecularNetwork.
Implicit Types (b : MolecularNetwork.t) (log : Log) (G : Graph) (thr : Qc).
Implicit Types (f : Fingerprint → Fingerprint → Qc).
Implicit Types (fps : list Fingerprint).

Lemma merge_lookup_idemp (x y : option NodeData) :
  merge_lookup x (merge_lookup x y) = merge_lookup x y.
Proof.
  destruct x as [[a s]|], y as [[a' s']|]; simpl; try done.
  - unfold merge_node. simpl. do 2 f_equal.
    + by rewrite (assoc_L (∪)), (idemp_L (∪)).
    + by rewrite (assoc_L (∪)), (idemp_L (∪)).
  - unfold merge_node. simpl. do 2 f_equal.
    + by rewrite (idemp_L (∪)).
    + by rewrite (idemp_L (∪)).
Qed.

Lemma filter_none {A} (P : A → Prop) `{!∀ x, Decision (P x)} (l : list A) :
  (∀ x, x ∈ l → ¬ P x) → filter P l = [].
Proof.
  induction l as [|x l IH]; intros Hl; [done|].
  rewrite filter_cons_False by (apply Hl; left).
  apply IH. intros y Hy. apply Hl. by right.
Qed.

Lemma nodes_foldl_link_linked thr f fps ps G :
  (∀ i j, (i, j) ∈ ps → linked thr f fps i j = true →
          i ∈ nodes G ∧ j ∈ nodes G) →
  nodes (foldl (link thr f fps) G ps) = nodes G.
Proof.
  revert G. induction ps as [|[i j] ps IH]; intros G Hps; simpl; [done|].
  assert (nodes (link thr f fps G (i, j)) = nodes G) as Hstep.
  { unfold link. simpl. destruct (linked thr f fps i j) eqn:Hl; [|done].
    destruct (Hps i j) as [? ?]; [left|done|].
    by apply nodes_add_edge_present. }
  rewrite IH, Hstep; [done|]. intros i' j' Hin Hl. rewrite Hstep.
  apply Hps; [by right|done].
Qed.

(** Running the two mutations of a build a second time changes neither the
    node order nor what any node holds. *)
Lemma build_idempotent thr f fps es G :
  NoDup es.*1 →
  let G' := add_edges_of thr f fps (add_nodes_from es G) in
  let G'' := add_edges_of thr f fps (add_nodes_from es G') in
  nodes G'' = nodes G' ∧ ∀ m, lookup_node m G'' = lookup_node m G'.
Proof.
  intros Hnd G' G''. split.
  - assert (∀ n, n ∈ nodes (add_nodes_from es G) → n ∈ nodes G') as Hkeep.
    { intros n Hn. eapply elem_of_prefix; [done|].
      apply nodes_foldl_link_prefix. }
    assert (nodes (add_nodes_from es G') = nodes G') as Hnodes.
    { rewrite nodes_add_nodes_from by done.
      rewrite filter_none; [by rewrite app_nil_r|].
      intros n Hn Hout. apply Hout, Hkeep, elem_of_nodes_add_nodes_from.
      by right. }
    unfold G'', add_edges_of. rewrite nodes_foldl_link_linked; [done|].
    intros i j Hij Hl. apply elem_of_pairs in Hij. rewrite Hnodes. split.
    + apply (has_edge_has_node _ i j). unfold G'.
      rewrite has_edge_add_edges_of. right. left. split; [lia|done].
    + apply (has_edge_has_node _ j i). unfold G'.
      rewrite has_edge_add_edges_of. right. right. split; [lia|done].
  - intros m. unfold G''. rewrite (merged_build thr f fps es G' m).
    unfold G'. rewrite (merged_build thr f fps es G m).
    apply merge_lookup_idemp.
Qed.

Lemma add_edges_of_short thr f fps G :
  length fps < 2 → add_edges_of thr f fps G = G.
Proof.
  intros Hlen. unfold add_edges_of.
  destruct fps as [|fp [|fp' fps]]; [done..|simpl in Hlen; lia].
Qed.

Lemma adj_lookup_ext G1 G2 :
  (∀ m, lookup_node m G1 = lookup_node m G2) →
  (∀ n, node_attr G1 n = node_attr G2 n) ∧ (∀ n, adj G1 n = adj G2 n).
Proof. intros Heq. unfold node_attr, adj. split; intros n; by rewrite Heq. Qed.

Lemma edges_ext G1 G2 :
  (∀ u v, has_edge G1 u v = has_edge G2 u v) → edges G1 = edges G2.
Proof.
  intros Heq. apply set_eq. intros [u v]. by rewrite !elem_of_edges, Heq.
Qed.

End repeat_facts.

Section returned_facts.
Context `{RDKit}.
Import networkx MolecularNetwork.
Implicit Types (b : MolecularNetwork.t) (log : Log) (G : Graph).


(** A call that returns would return on any other content of the Network
    too, and what it does to the Network is to add the node entries and
    then the edges of some fingerprints. *)
Lemma create_graph_returns_build `{Label L} b log smiles_list
    (classes : list L) G' st' :
  create_graph smiles_list classes (b, log) = (inr G', st') →
  ∃ f fps,
    ∀ G0 log0,
      create_graph smiles_list classes (with_graph (λ _, G0) b, log0)
      = (inr (add_edges_of (sim_threshold b) f fps
                (add_nodes_from (node_entries smiles_list classes) G0)),
         (with_graph
            (λ _, add_edges_of (sim_threshold b) f fps
                    (add_nodes_from (node_entries smiles_list classes) G0))
            b,
          log0 ++ smiles_list)).
Proof.
  destruct (create_graph_cases b log smiles_list)
    as [(k & bad & Hk & Hbad & Hpre & _ & Hrun)
       |[(smi & mol & Hsmi & Hmol & HD & Hrun)
        |(mols & Hparse & HD' &
           [[HN _]|(HN & D & HD &
              [(f & Hm & _)|[(g & Hm & Hrun)|(Hm & Hrun)]])])]];
    try (by rewrite Hrun); intros _.
  - destruct (decide (smiles_list = [])) as [->|Hne].
    + exists (λ _ _, 0%Qc), []. intros G0 log0.
      by rewrite create_graph_nil, app_nil_r.
    + destruct (HD' Hne) as [D HD]. exists (λ _ _, 0%Qc), (D <$> mols).
      intros G0 log0.
      rewrite (create_graph_parsed _ _ _ _ mols D) by done. cbv zeta.
      rewrite decide_True by done.
      rewrite add_edges_of_short; [done|].
      rewrite length_fmap, <-(Forall2_length _ _ _ Hparse). done.
  - exists f, (D <$> mols). intros G0 log0.
    rewrite (create_graph_parsed _ _ _ _ mols D) by done. cbv zeta.
    rewrite decide_False by lia.
    change (metric_fn (with_graph (λ _, G0) b)) with (metric_fn b).
    by rewrite Hm.
Qed.

End returned_facts.


(** ** graph.py: what a build does, in every case *)

Section build_properties.
Context `{RDKit}.
Import networkx MolecularNetwork.
Implicit Types (b : MolecularNetwork.t) (log : Log) (G : Graph).

(** X4.  What each outcome of [create_graph] means, for labels that the
    array holds as they are.  A returned graph is the builder's Network,
    every identifier has been handed to the parser and all of them parse.
    [InvalidSMILESError] means that some identifier does not parse: the
    builder is unchanged and the parser has been handed the identifiers up
    to the first such one.  [KeyError] carries the descriptor name (it is
    not a key of the table, the first identifier parses, the builder is
    unchanged) or the metric name (it is not a key of the table, there are
    two identifiers or more, and the node entries have been added).
    [TypeError] comes from the scoring step: there are two identifiers or
    more, all of them parse, the descriptor name is a key of the table, and
    the node entries have been added.  No index operation of the build is
    ever out of range: [IndexError] is never raised. *)
Theorem create_graph_outcome_table `{Label L} b log smiles_list
    (classes : list L) :
  match create_graph smiles_list classes (b, log) with
  | (inr G, (b', log')) =>
      G = graph b' ∧ log' = log ++ smiles_list ∧
      (∀ smi, smi ∈ smiles_list → is_Some (MolFromSmiles smi))
  | (inl InvalidSMILESError, (b', log')) =>
      b' = b ∧
      ∃ k bad,
        smiles_list !! k = Some bad ∧ MolFromSmiles bad = None ∧
        (∀ i smi, i < k → smiles_list !! i = Some smi →
                  is_Some (MolFromSmiles smi)) ∧
        log' = log ++ take (S k) smiles_list
  | (inl (KeyError key), (b', log')) =>
      (key = FingerprintCalculator.descriptor (fingerprint_calculator b) ∧
       descriptor_fn b = None ∧ b' = b ∧
       ∃ smi, smiles_list !! 0 = Some smi ∧ is_Some (MolFromSmiles smi) ∧
              log' = log ++ [smi])
      ∨ (key = SimilarityCalculator.sim_metric (similarity_calculator b) ∧
         metric_fn b = None ∧ 2 ≤ length smiles_list ∧
         b' = with_graph
                (add_nodes_from (node_entries smiles_list classes)) b ∧
         log' = log ++ smiles_list)
  | (inl TypeError, (b', log')) =>
      2 ≤ length smiles_list ∧
      (∀ smi, smi ∈ smiles_list → is_Some (MolFromSmiles smi)) ∧
      is_Some (descriptor_fn b) ∧
      b' = with_graph (add_nodes_from (node_entries smiles_list classes)) b ∧
      log' = log ++ smiles_list
  | (inl IndexError, _) => False
  end.
Proof.
  destruct (create_graph_cases b log smiles_list)
    as [(k & bad & Hk & Hbad & Hpre & _ & Hrun)
       |[(smi & mol & Hsmi & Hmol & HD & Hrun)
        |(mols & Hparse & HD' &
           [[HN Hrun]|(HN & D & HD &
              [(f & Hm & Hrun)|[(g & Hm & Hrun)|(Hm & Hrun)]])])]];
    rewrite Hrun.
  - split; [done|]. by exists k, bad.
  - left. split_and!; [done..|]. exists smi. split_and!; [done|eauto|].
    destruct smiles_list; simplify_eq/=. by rewrite take_0.
  - split_and!; [done..|]. by eapply parsed_all.
  - split_and!; [done..|]. by eapply parsed_all.
  - split_and!; [done|by eapply parsed_all|eauto|done..].
  - right. by split_and!.
Qed.

(** X5.  What a returning build needs.  When [create_graph] returns, every
    identifier parses, the descriptor name is a key of the descriptor table
    unless there is no identifier, and the metric name selects a
    two-argument metric unless there are fewer than two identifiers.  For a
    builder as the constructor makes it, whatever its Network holds: the
    descriptor name is then one of the six table keys unless there is no
    identifier, and the metric name one of the eleven table keys other than
    ["tversky"] unless there are fewer than two identifiers.  With fewer
    than two identifiers no score is computed, and the build returns exactly
    when every identifier parses and the descriptor name is a key unless
    there is no identifier. *)
Theorem create_graph_returns_only_if `{Label L} :
  (∀ b log smiles_list (classes : list L) G' st',
     create_graph smiles_list classes (b, log) = (inr G', st') →
     (∀ smi, smi ∈ smiles_list → is_Some (MolFromSmiles smi)) ∧
     (smiles_list ≠ [] → is_Some (descriptor_fn b)) ∧
     (2 ≤ length smiles_list →
      ∃ f, metric_fn b = Some (SimilarityCalculator.Fn2 f))) ∧
  (∀ descriptor sim_metric thr log0,
     ∃ b0,
       MolecularNetwork.__init__ descriptor sim_metric thr log0
       = (inr b0, log0) ∧
       ∀ G log smiles_list (classes : list L) G' st',
         create_graph smiles_list classes (with_graph (λ _, G) b0, log)
         = (inr G', st') →
         (∀ smi, smi ∈ smiles_list → is_Some (MolFromSmiles smi)) ∧
         (smiles_list ≠ [] → descriptor ∈ supported_descriptors) ∧
         (2 ≤ length smiles_list →
          sim_metric ∈ supported_metrics ∧ sim_metric ≠ "tversky")) ∧
  (∀ b log smiles_list (classes : list L),
     length smiles_list < 2 →
     (∃ G' st', create_graph smiles_list classes (b, log) = (inr G', st'))
     ↔ (∀ smi, smi ∈ smiles_list → is_Some (MolFromSmiles smi)) ∧
       (smiles_list ≠ [] → is_Some (descriptor_fn b))).
Proof.
  split_and!.
  - intros b log smiles_list classes G' st' Hrun.
    apply (create_graph_returns_cond b log smiles_list classes). eauto.
  - intros descriptor sim_metric thr log0.
    destruct (init_spec descriptor sim_metric thr log0)
      as (b0 & Hinit & _ & _ & _ & _ & HD & HM & Htv & Hf2).
    exists b0. split; [done|]. intros G log smiles_list classes G' st' Hrun.
    destruct (proj1 (create_graph_returns_cond
                       (with_graph (λ _, G) b0) log smiles_list classes))
      as (Hall & Hd & Hm); [eauto|].
    change (descriptor_fn (with_graph (λ _, G) b0)) with (descriptor_fn b0)
      in Hd.
    change (metric_fn (with_graph (λ _, G) b0)) with (metric_fn b0) in Hm.
    rewrite HD in Hd. split_and!; [done..|].
    intros HN. destruct (Hm HN) as [f Hf]. split.
    + apply HM. by rewrite Hf.
    + intros ->. destruct Htv as [g Hg]; [done|]. congruence.
  - intros b log smiles_list classes HN.
    rewrite create_graph_returns_cond. split; [naive_solver|].
    intros [Hall Hd]. split_and!; [done..|lia].
Qed.

(** X6.  A call of [create_graph] only ever adds to the Network, whether it
    returns or raises: the configuration of the builder is untouched; the
    nodes there were stay, in their order, in front of the new ones; every
    edge stays; a node keeps its attribute keys, and the value of every
    attribute other than ["smiles"] and ["categorical_label"].  A call that
    raises has added no edge. *)
Theorem create_graph_only_adds `{Label L} b log smiles_list
    (classes : list L) :
  match create_graph smiles_list classes (b, log) with
  | (r, (b', log')) =>
      (sim_threshold b' = sim_threshold b ∧
       fingerprint_calculator b' = fingerprint_calculator b ∧
       similarity_calculator b' = similarity_calculator b) ∧
      nodes (graph b) `prefix_of` nodes (graph b') ∧
      (∀ u v, has_edge (graph b) u v = true →
              has_edge (graph b') u v = true) ∧
      (∀ n d, node_attr (graph b) n = Some d →
         ∃ d', node_attr (graph b') n = Some d' ∧
           (∀ key, is_Some (d !! key) → is_Some (d' !! key)) ∧
           (∀ key, key ≠ "smiles" → key ≠ "categorical_label" →
                   d' !! key = d !! key)) ∧
      (∀ e, r = inl e →
         ∀ u v, has_edge (graph b') u v = has_edge (graph b) u v)
  end.
Proof.
  pose proof (create_graph_growth b log smiles_list classes) as Hgrowth.
  destruct (create_graph smiles_list classes (b, log))
    as [r [b' log']] eqn:Hrun.
  simpl in Hgrowth.
  assert (∀ e, r = inl e →
            ∀ u v, has_edge (graph b') u v = has_edge (graph b) u v) as Hraise.
  { intros e -> u v.
    destruct (create_graph_raise_state _ _ _ _ _ _ _ Hrun) as [->| ->];
      [done|]. simpl. apply has_edge_add_nodes_from. }
  clear Hrun. subst b'. simpl. split_and!; [done..| | | |done].
  - apply growth_nodes_prefix.
  - intros u v. apply growth_has_edge_keeps.
  - intros n d Hd.
    destruct (growth_node_attr b smiles_list classes _ n d Hd)
      as (d' & Hd' & Hor).
    exists d'. split; [done|].
    destruct Hor as [->|(smi & c & _ & _ & ->)]; [done|]. split.
    + intros key Hkey. rewrite lookup_union_is_Some. by right.
    + intros key Hs Hc. apply lookup_union_r.
      rewrite lookup_insert_ne by done. by rewrite lookup_singleton_ne.
Qed.

(** X7.  What a call of [create_graph] on [N] identifiers adds lies within
    the positions [0..N-1], whether it returns or raises: a node that was
    not in the Network before is a position below [N]; an edge that was not
    there before joins two different positions below [N]; so at most
    [N (N - 1) / 2] edges are added. *)
Theorem create_graph_adds_within_positions `{Label L} b log smiles_list
    (classes : list L) :
  match create_graph smiles_list classes (b, log) with
  | (_, (b', _)) =>
      (∀ n, n ∈ nodes (graph b') →
            n ∈ nodes (graph b) ∨ n < length smiles_list) ∧
      (∀ u v, has_edge (graph b') u v = true →
              has_edge (graph b) u v = true ∨
              u ≠ v ∧ u < length smiles_list ∧ v < length smiles_list) ∧
      2 * number_of_edges (graph b')
      ≤ 2 * number_of_edges (graph b)
        + length smiles_list * (length smiles_list - 1)
  end.
Proof.
  pose proof (create_graph_growth b log smiles_list classes) as Hgrowth.
  destruct (create_graph smiles_list classes (b, log))
    as [r [b' log']] eqn:Hrun.
  simpl in Hgrowth. subst b'. simpl. split_and!.
  - apply growth_nodes.
  - intros u v Huv. apply growth_has_edge in Huv as [?|?]; [by left|right].
    lia.
  - unfold number_of_edges.
    pose proof (subseteq_size _ _
      (growth_edges b smiles_list classes (graph b))) as Hsize.
    rewrite size_union_alt in Hsize.
    pose proof (subseteq_size
      (list_to_set (pairs (length smiles_list)) ∖ edges (graph b))
      (list_to_set (pairs (length smiles_list)))) as Hdiff.
    rewrite size_list_to_set in Hdiff by apply NoDup_pairs.
    pose proof (length_pairs (length smiles_list)).
    specialize (Hdiff ltac:(set_solver)). lia.
Qed.

(** X8.  Building the same input again changes nothing: when a call of
    [create_graph] returns, a second call with the same identifiers and
    labels returns too, and the Network after it has the nodes of the first
    result in the same order, with the same attributes and the same
    neighbours, hence the same edges. *)
Theorem create_graph_again_changes_nothing `{Label L} b log smiles_list
    (classes : list L) G' b' log' :
  create_graph smiles_list classes (b, log) = (inr G', (b', log')) →
  ∃ G'' b'',
    create_graph smiles_list classes (b', log')
    = (inr G'', (b'', log' ++ smiles_list)) ∧
    graph b'' = G'' ∧
    nodes G'' = nodes G' ∧
    (∀ n, node_attr G'' n = node_attr G' n) ∧
    (∀ n, adj G'' n = adj G' n) ∧
    edges G'' = edges G'.
Proof.
  intros Hrun.
  destruct (create_graph_returns_build _ _ _ _ _ _ Hrun) as (f & fps & Hany).
  assert (with_graph (λ _, graph b) b = b) as Hb by (by destruct b).
  pose proof (Hany (graph b) log) as Hfirst.
  rewrite Hb, Hrun in Hfirst. injection Hfirst as -> -> ->.
  rewrite Hany.
  destruct (build_idempotent (sim_threshold b) f fps
              (node_entries smiles_list classes) (graph b))
    as [Hnodes Hlookup]; [apply node_entries_NoDup|].
  destruct (adj_lookup_ext _ _ Hlookup) as [Hattr Hadj].
  eexists _, _. split_and!; [done..|].
  apply edges_ext. intros u v. unfold has_edge. by rewrite Hadj.
Qed.

(** X9.  The labels have no influence on whether the build returns, on
    which exception it raises, on what the parser is handed, or on the
    edges: two calls on the same builder and identifiers with any two label
    sequences (of any lengths and types) end alike and leave Networks with
    the same edges. *)
Theorem labels_do_not_affect_edges `{Label L1} `{Label L2} b log
    smiles_list (classes1 : list L1) (classes2 : list L2) :
  match create_graph smiles_list classes1 (b, log),
        create_graph smiles_list classes2 (b, log) with
  | (r1, (b1, log1)), (r2, (b2, log2)) =>
      match r1, r2 with
      | inl e1, inl e2 => e1 = e2
      | inr _, inr _ => True
      | _, _ => False
      end ∧
      log1 = log2 ∧
      (∀ u v, has_edge (graph b1) u v = has_edge (graph b2) u v) ∧
      edges (graph b1) = edges (graph b2)
  end.
Proof.
  assert (∀ G1 G2 : Graph,
            (∀ u v, has_edge G1 u v = has_edge G2 u v) →
            (∀ u v, has_edge G1 u v = has_edge G2 u v) ∧
            edges G1 = edges G2) as Hboth.
  { intros G1 G2 Heq. split; [done|]. by apply edges_ext. }
  destruct (create_graph_cases b log smiles_list)
    as [(k & bad & Hk & Hbad & Hpre & _ & Hrun)
       |[(smi & mol & Hsmi & Hmol & HD & Hrun)
        |(mols & Hparse & HD' &
           [[HN Hrun]|(HN & D & HD &
              [(f & Hm & Hrun)|[(g & Hm & Hrun)|(Hm & Hrun)]])])]];
    rewrite !Hrun; (split; [done|split; [done|]]); apply Hboth; intros u v;
    simpl;
    first [ done
          | by rewrite !has_edge_add_nodes_from
          | apply eq_true_iff_eq;
            by rewrite !has_edge_add_edges_of, !has_edge_add_nodes_from ].
Qed.

(** X10.  The two smallest inputs, for labels that the array holds as they
    are.  On an empty identifier list [create_graph] returns the Network as
    it is and changes nothing, for every configuration of the builder and
    every sequence of such labels.  On a
    single identifier that parses, with a descriptor name that is a key of
    the table, it returns for every metric name (the metric is never looked
    up), having added the node entry of position [0] when there is a label,
    and no edge. *)
Theorem create_graph_on_smallest_inputs `{Label L} b log (classes : list L) :
  create_graph [] classes (b, log) = (inr (graph b), (b, log)) ∧
  ∀ smi mol,
    MolFromSmiles smi = Some mol → is_Some (descriptor_fn b) →
    ∃ G',
      create_graph [smi] classes (b, log)
      = (inr G', (with_graph (λ _, G') b, log ++ [smi])) ∧
      G' = add_nodes_from
             (match classes with
              | [] => []
              | c :: _ => [(0, {[ "smiles" := smi;
                                   "categorical_label" := str c ]})]
              end) (graph b) ∧
      ∀ u v, has_edge G' u v = has_edge (graph b) u v.
Proof.
  split; [apply create_graph_nil|]. intros smi mol Hmol [D HD].
  eexists. split_and!.
  - rewrite (create_graph_parsed _ _ _ _ [mol] D)
      by (done || by repeat constructor).
    cbv zeta. rewrite decide_True by (simpl; lia). done.
  - by destruct classes.
  - intros u v. simpl. apply has_edge_add_nodes_from.
Qed.

End build_properties.

(** ** graph.py: inputs of different lengths *)

Section mismatch_properties.
Context `{RDKit}.
Import networkx MolecularNetwork.
Implicit Types (b : MolecularNetwork.t) (log : Log) (G : Graph) (thr : Qc).
Implicit Types (f : Fingerprint → Fingerprint → Qc).
Implicit Types (fps : list Fingerprint).

Lemma node_entries_take `{Label L} smiles_list (classes : list L) :
  node_entries smiles_list (take (length smiles_list) classes)
  = node_entries smiles_list classes.
Proof.
  unfold node_entries. f_equal. revert classes.
  induction smiles_list as [|smi smiles_list IH]; intros [|c classes];
    simpl; [done..|]. by rewrite IH.
Qed.

Lemma node_attr_foldl_link_new thr f fps ps G k :
  node_attr G k = None →
  (node_attr (foldl (link thr f fps) G ps) k = None ∧
   ∀ i j, (i, j) ∈ ps → linked thr f fps i j = true → k ≠ i ∧ k ≠ j)
  ∨ (node_attr (foldl (link thr f fps) G ps) k = Some ∅ ∧
     ∃ i j, (i, j) ∈ ps ∧ linked thr f fps i j = true ∧ (k = i ∨ k = j)).
Proof.
  revert G. induction ps as [|[i j] ps IH]; intros G Hk; simpl.
  { left. split; [done|]. intros i j Hin. by apply elem_of_nil in Hin. }
  assert (link thr f fps G (i, j)
          = if linked thr f fps i j then add_edge i j G else G) as ->
    by done.
  destruct (linked thr f fps i j) eqn:Hl.
  - destruct (decide (k = i ∨ k = j)) as [Hor|Hnor].
    + right. split; [|exists i, j; split_and!; [left|done..]].
      rewrite node_attr_foldl_link.
      * rewrite node_attr_add_edge, decide_True by done. by rewrite Hk.
      * apply elem_of_nodes_add_edge. tauto.
    + destruct (IH (add_edge i j G)) as [[Hnone Hno]|[Hsome Hex]].
      * by rewrite node_attr_add_edge, decide_False.
      * left. split; [done|]. intros i' j' Hin Hl'.
        apply elem_of_cons in Hin as [[= -> ->]|Hin]; [tauto|].
        by apply Hno.
      * right. split; [done|].
        destruct Hex as (i' & j' & Hin & Hl' & Hor).
        exists i', j'. split_and!; [by right|done..].
  - destruct (IH G Hk) as [[Hnone Hno]|[Hsome Hex]].
    + left. split; [done|]. intros i' j' Hin Hl'.
      apply elem_of_cons in Hin as [[= -> ->]|Hin]; [congruence|].
      by apply Hno.
    + right. split; [done|].
      destruct Hex as (i' & j' & Hin & Hl' & Hor).
      exists i', j'. split_and!; [by right|done..].
Qed.

(** X14.  For labels that the array holds as they are (so that further
    labels do not change how one is stored), the labels beyond the last
    identifier are ignored: a call with more labels than identifiers ends
    as the call with the first [N] labels does, with the same result or
    exception and the same builder and parser log. *)
Theorem surplus_labels_are_ignored `{Label L} b log smiles_list
    (classes : list L) :
  create_graph smiles_list classes (b, log)
  = create_graph smiles_list (take (length smiles_list) classes) (b, log).
Proof.
  destruct (create_graph_cases b log smiles_list)
    as [(k & bad & Hk & Hbad & Hpre & _ & Hrun)
       |[(smi & mol & Hsmi & Hmol & HD & Hrun)
        |(mols & Hparse & HD' &
           [[HN Hrun]|(HN & D & HD &
              [(f & Hm & Hrun)|[(g & Hm & Hrun)|(Hm & Hrun)]])])]];
    rewrite !Hrun, ?node_entries_take; done.
Qed.

(** X15.  A position without a label gets no node entry: when a call of
    [create_graph] returns, a position at or beyond the number of labels
    that was not a node before the call is a node afterwards exactly when
    an edge ends at it, and then it carries no attributes (neither
    ["smiles"] nor ["categorical_label"]). *)
Theorem unlabelled_position_is_bare `{Label L} b log smiles_list
    (classes : list L) G' st' k :
  create_graph smiles_list classes (b, log) = (inr G', st') →
  length classes ≤ k →
  k ∉ nodes (graph b) →
  (k ∈ nodes G' ↔ ∃ j, has_edge G' k j = true) ∧
  (k ∈ nodes G' → node_attr G' k = Some ∅).
Proof.
  intros Hrun Hk Hnew.
  destruct (create_graph_returns_build _ _ _ _ _ _ Hrun) as (f & fps & Hany).
  assert (with_graph (λ _, graph b) b = b) as Hb by (by destruct b).
  pose proof (Hany (graph b) log) as Hfirst.
  rewrite Hb, Hrun in Hfirst. injection Hfirst as -> _.
  set (G1 := add_nodes_from (node_entries smiles_list classes) (graph b)).
  assert (k ∉ nodes G1) as Hnew1.
  { unfold G1. rewrite elem_of_nodes_add_nodes_from, node_entries_keys,
      elem_of_seq. intros [?|?]; [done|lia]. }
  assert (node_attr G1 k = None) as Hnone.
  { apply eq_None_not_Some. by rewrite node_attr_is_Some. }
  assert (∀ j, has_edge (add_edges_of (sim_threshold b) f fps G1) k j = true
               ↔ k < j ∧ linked (sim_threshold b) f fps k j = true
                 ∨ j < k ∧ linked (sim_threshold b) f fps j k = true)
    as Hedge.
  { intros j. rewrite has_edge_add_edges_of. split; [|tauto].
    intros [Hold|?]; [|done]. by apply has_edge_has_node in Hold. }
  unfold add_edges_of in *.
  destruct (node_attr_foldl_link_new (sim_threshold b) f fps
              (pairs (length fps)) G1 k Hnone)
    as [[Hattr Hno]|[Hattr (i & j & Hin & Hl & Hor)]].
  - assert (k ∉ nodes (foldl (link (sim_threshold b) f fps) G1
                         (pairs (length fps)))) as Hout.
    { rewrite <-node_attr_is_Some, Hattr. by intros [? ?]. }
    split; [|done]. split; [done|]. intros [j Hj].
    by apply has_edge_has_node in Hj.
  - split; [|done]. split.
    + intros _. apply elem_of_pairs in Hin.
      destruct Hor as [->| ->].
      * exists j. apply Hedge. left. split; [lia|done].
      * exists i. apply Hedge. right. split; [lia|done].
    + intros [j' Hj']. by apply has_edge_has_node in Hj'.
Qed.

End mismatch_properties.

(** ** The further properties on the stub toolkit *)

Section further_runs.
Import networkx MolecularNetwork Stub.
Local Open Scope string_scope.

Lemma convert_classes_indices_follow_labels_witness :
  ∃ (vocabulary : list np.number) (indices : list nat),
    MolecularNetwork._convert_classes [30; -10; 30; 2 ^ 62]%Z ()
    = (inr (vocabulary, indices), ()) ∧
    indices = [1; 0; 1; 2]%nat.
Proof.
  destruct (@convert_classes_indices_follow_labels Z int_ArrayLike
              [30; -10; 30; 2 ^ 62]%Z (np.mk_number np.int64))
    as (vocabulary & indices & Hrun & _).
  - reflexivity.
  - intros x c _ _. apply bool_decide_eq_true.
  - exists vocabulary, indices. split; [apply Hrun|].
    pose proof (Hrun unit ()) as Heq. by injection Heq as _ <-.
Defined.

Lemma vocabulary_depends_on_label_set_witness :
  np.unique ["b"; "a"; "b"] = np.unique ["a"; "b"; "a"; "a"] ∧
  np.unique ["b"; "a"; "b"] = ["a"; "b"].
Proof.
  split; [|reflexivity].
  apply (vocabulary_depends_on_label_set
           ["b"; "a"; "b"] ["a"; "b"; "a"; "a"]).
  intros c. rewrite !elem_of_cons, !elem_of_nil. tauto.
Defined.

Lemma create_graph_again_changes_nothing_witness :
  ∃ G'' b'',
    create_graph ["CCO"; "CCN"; "C"] ["a"; "b"; "a"]
      (create_graph ["CCO"; "CCN"; "C"] ["a"; "b"; "a"]
         (default_builder, [])).2
    = (inr G'',
       (b'', ["CCO"; "CCN"; "C"; "CCO"; "CCN"; "C"])) ∧
    nodes G'' = [0; 1; 2]%nat ∧
    edges G'' = {[ (0, 1)%nat ]}.
Proof.
  destruct (create_graph_again_changes_nothing default_builder []
              ["CCO"; "CCN"; "C"] ["a"; "b"; "a"]
              (graph (create_graph ["CCO"; "CCN"; "C"] ["a"; "b"; "a"]
                        (default_builder, [])).2.1)
              (create_graph ["CCO"; "CCN"; "C"] ["a"; "b"; "a"]
                 (default_builder, [])).2.1
              ["CCO"; "CCN"; "C"])
    as (G'' & b'' & Hrun & _ & Hnodes & _ & _ & Hedges).
  - reflexivity.
  - exists G'', b''. split_and!.
    + exact Hrun.
    + rewrite Hnodes. reflexivity.
    + rewrite Hedges. by vm_compute.
Defined.

Lemma unlabelled_position_is_bare_witness :
  node_attr
    (graph (create_graph ["CCO"; "CCN"; "C"] ["a"]
              (default_builder, [])).2.1) 1
  = Some ∅ ∧
  nodes
    (graph (create_graph ["CCO"; "CCN"; "C"] ["a"]
              (default_builder, [])).2.1)
  = [0; 1]%nat.
Proof.
  split; [|reflexivity].
  apply (unlabelled_position_is_bare default_builder []
           ["CCO"; "CCN"; "C"] ["a"]
           (graph (create_graph ["CCO"; "CCN"; "C"] ["a"]
                     (default_builder, [])).2.1)
           (create_graph ["CCO"; "CCN"; "C"] ["a"] (default_builder, [])).2
           1).
  - reflexivity.
  - simpl. lia.
  - apply not_elem_of_nil.
  - apply (bool_decide_unpack _). by vm_compute.
Defined.

End further_runs.
